(** * ha-web-rtc-player: call sequencing and lifecycle of the WebRTC player

    A shallow embedding of the [HaWebRtcPlayer] custom element
    (class [HaWebRtcPlayer extends LitElement]).  The element is a state
    coordinator around browser primitives, so the embedding keeps

    - the private fields of [this] as a record ([Player]);
    - the objects the element allocates (peer connections, media streams,
      the activations of the async method [_startWebRtc] with their closure
      variables) as an environment ([Env]);
    - every call that leaves the element (data layer, RTCPeerConnection,
      MediaStream, the video element, [fireEvent]) as an entry of a call
      log ([Call]).

    An [async] method is cut at each [await]: the part before the first
    [await] runs in the step that calls the method, each later part runs in
    the step in which the awaited promise settles.  Between two such steps
    any other event may be handled, as in the browser's event loop.

    [console.time], [console.timeLog] and [console.timeEnd] only write to
    the developer console and are left out. *)

From Stdlib Require Import Lia Ascii.
From stdpp Require Import base list strings.

Open Scope string_scope.
Open Scope list_scope.

(** ** Values *)

(** JavaScript truthiness of an optional string ([undefined], [null] and
    the empty string are falsy). *)
Definition truthy (v : option string) : bool :=
  match v with
  | Some s => negb (String.eqb s "")
  | None => false
  end.

(** Truthiness of an optional object reference. *)
Definition defined {A : Type} (v : option A) : bool :=
  match v with
  | Some _ => true
  | None => false
  end.

Inductive TransceiverKind := Audio | Video.

(** [RTCRtpTransceiverDirection]. *)
Inductive Direction := SendRecv | SendOnly | RecvOnly | Inactive.

(** Result of [fetchWebRtcClientConfiguration]: the [RTCConfiguration]
    (opaque here) and the optional data-channel label. *)
Record ClientConfig := {
  configuration : string;
  dataChannel : option string;
}.

(** [WebRtcOfferEvent] is declared in [../data/camera]; the handler tests
    its [type] tag against ["session_id"], ["answer"] and ["candidate"] and
    ignores every other tag. *)
Inductive WebRtcOfferEvent :=
| SessionIdEvent (session_id : string)
| AnswerEvent (answer : string)
| CandidateEvent (candidate : string)
| OtherEvent (type : string).

(** Handles are natural numbers: [pc] a peer connection, [ms] a media
    stream, [track] a media track, [sub] the promise returned by
    [webRtcOffer]. *)
Inductive Call :=
| FetchWebRtcClientConfiguration (entity : string)
| NewRTCPeerConnection (pc : nat) (configuration : string)
| CreateDataChannel (pc : nat) (label : string)
| AddTransceiver (pc : nat) (kind : TransceiverKind) (direction : Direction)
| AddEventListener (pc : nat) (type : string)
| CreateOffer (pc : nat) (offerToReceiveAudio offerToReceiveVideo : bool)
| SetLocalDescription (pc : nat) (sdp : string)
| WebRtcOffer (entity : string) (offer_sdp : string)
| AddWebRtcCandidate (entity : string) (session_id : string) (candidate : string)
| SetRemoteDescription (pc : nat) (sdp : string)
| AddIceCandidate (pc : nat) (candidate : string) (sdpMid : string)
| PcClose (pc : nat)
| PcAddTrack (pc : nat) (track : nat)
| NewMediaStream (ms : nat)
| StreamAddTrack (ms : nat) (track : nat)
| TrackStop (track : nat)
| VideoSetSrcObject (ms : nat)
| VideoRemoveAttribute (name : string)
| VideoLoad
| Unsubscribe (sub : nat)
| FireEvent (type : string).

(** [PcAddTrack] is [RTCPeerConnection.addTrack], the call that attaches a
    local track for sending.  The element never makes it; it is part of the
    alphabet so that its absence from every log can be stated.
    [Unsubscribe sub] stands for [sub.then((unsub) => unsub())]. *)

(** ** The element *)

Record Player := {
  entityid : string;
  _error : option string;
  _videoEl : bool;
  _peerConnection : option nat;
  _remoteStream : option nat;
  _unsub : option nat;
  _sessionId : option string;
  _candidatesList : list string;
}.

Definition set_entityid (v : string) (p : Player) : Player :=
  {| entityid := v; _error := _error p; _videoEl := _videoEl p;
     _peerConnection := _peerConnection p; _remoteStream := _remoteStream p;
     _unsub := _unsub p; _sessionId := _sessionId p;
     _candidatesList := _candidatesList p |}.

Definition set_error (v : option string) (p : Player) : Player :=
  {| entityid := entityid p; _error := v; _videoEl := _videoEl p;
     _peerConnection := _peerConnection p; _remoteStream := _remoteStream p;
     _unsub := _unsub p; _sessionId := _sessionId p;
     _candidatesList := _candidatesList p |}.

Definition set_peerConnection (v : option nat) (p : Player) : Player :=
  {| entityid := entityid p; _error := _error p; _videoEl := _videoEl p;
     _peerConnection := v; _remoteStream := _remoteStream p;
     _unsub := _unsub p; _sessionId := _sessionId p;
     _candidatesList := _candidatesList p |}.

Definition set_remoteStream (v : option nat) (p : Player) : Player :=
  {| entityid := entityid p; _error := _error p; _videoEl := _videoEl p;
     _peerConnection := _peerConnection p; _remoteStream := v;
     _unsub := _unsub p; _sessionId := _sessionId p;
     _candidatesList := _candidatesList p |}.

Definition set_unsub (v : option nat) (p : Player) : Player :=
  {| entityid := entityid p; _error := _error p; _videoEl := _videoEl p;
     _peerConnection := _peerConnection p; _remoteStream := _remoteStream p;
     _unsub := v; _sessionId := _sessionId p;
     _candidatesList := _candidatesList p |}.

Definition set_sessionId (v : option string) (p : Player) : Player :=
  {| entityid := entityid p; _error := _error p; _videoEl := _videoEl p;
     _peerConnection := _peerConnection p; _remoteStream := _remoteStream p;
     _unsub := _unsub p; _sessionId := v;
     _candidatesList := _candidatesList p |}.

Definition set_candidatesList (v : list string) (p : Player) : Player :=
  {| entityid := entityid p; _error := _error p; _videoEl := _videoEl p;
     _peerConnection := _peerConnection p; _remoteStream := _remoteStream p;
     _unsub := _unsub p; _sessionId := _sessionId p;
     _candidatesList := v |}.

(** What [render] returns: the alert with the error text, or the video
    element (whose attributes are the presentational properties of the
    element, passed through unchanged). *)
Inductive Template :=
| HaAlert (message : string)
| VideoElement.

Definition render (p : Player) : Template :=
  if truthy (_error p)
  then HaAlert (default "" (_error p))
  else VideoElement.

(** ** Activations of [_startWebRtc] *)

Inductive Phase :=
| AwaitClientConfig
| AwaitCreateOffer
| AwaitSetLocalDescription (sdp : string)
| Returned
| Thrown.

(** One activation: where it is suspended, its local [candidates] string,
    whether its [icecandidate] listener is registered, and the
    [remoteStream] its [track] listener closes over. *)
Record Frame := {
  phase : Phase;
  candidates : string;
  icecandidate_listener : bool;
  track_listener : option nat;
}.

Definition set_phase (v : Phase) (f : Frame) : Frame :=
  {| phase := v; candidates := candidates f;
     icecandidate_listener := icecandidate_listener f;
     track_listener := track_listener f |}.

Definition set_candidates (v : string) (f : Frame) : Frame :=
  {| phase := phase f; candidates := v;
     icecandidate_listener := icecandidate_listener f;
     track_listener := track_listener f |}.

Definition set_icecandidate_listener (v : bool) (f : Frame) : Frame :=
  {| phase := phase f; candidates := candidates f;
     icecandidate_listener := v;
     track_listener := track_listener f |}.

Definition set_track_listener (v : option nat) (f : Frame) : Frame :=
  {| phase := phase f; candidates := candidates f;
     icecandidate_listener := icecandidate_listener f;
     track_listener := v |}.

Definition pending (ph : Phase) : bool :=
  match ph with
  | AwaitClientConfig | AwaitCreateOffer | AwaitSetLocalDescription _ => true
  | Returned | Thrown => false
  end.

(** The objects around the element.  An activation is named by its index
    in [frames], a media stream by its index in [streams] (the entry is
    what [getTracks] returns). *)
Record Env := {
  frames : list Frame;
  streams : list (list nat);
  next_pc : nat;
  next_sub : nat;
  remote_pending : list nat;
}.

Definition set_frames (v : list Frame) (w : Env) : Env :=
  {| frames := v; streams := streams w; next_pc := next_pc w;
     next_sub := next_sub w; remote_pending := remote_pending w |}.

Definition set_streams (v : list (list nat)) (w : Env) : Env :=
  {| frames := frames w; streams := v; next_pc := next_pc w;
     next_sub := next_sub w; remote_pending := remote_pending w |}.

Definition set_next_pc (v : nat) (w : Env) : Env :=
  {| frames := frames w; streams := streams w; next_pc := v;
     next_sub := next_sub w; remote_pending := remote_pending w |}.

Definition set_next_sub (v : nat) (w : Env) : Env :=
  {| frames := frames w; streams := streams w; next_pc := next_pc w;
     next_sub := v; remote_pending := remote_pending w |}.

Definition set_remote_pending (v : list nat) (w : Env) : Env :=
  {| frames := frames w; streams := streams w; next_pc := next_pc w;
     next_sub := next_sub w; remote_pending := v |}.

Record Sys := {
  this : Player;
  env : Env;
}.

(** ** Actions: state passing with a call log *)

Definition Action := Sys -> Sys * list Call.

Definition skip : Action := fun s => (s, []).

Definition call (c : Call) : Action := fun s => (s, [c]).

Definition assign (f : Player -> Player) : Action :=
  fun s => ({| this := f (this s); env := env s |}, []).

Definition update (f : Env -> Env) : Action :=
  fun s => ({| this := this s; env := f (env s) |}, []).

Definition andThen (a b : Action) : Action :=
  fun s =>
    let (s1, c1) := a s in
    let (s2, c2) := b s1 in
    (s2, c1 ++ c2).

Definition read {A : Type} (g : Sys -> A) (k : A -> Action) : Action :=
  fun s => k (g s) s.

Notation "a >> b" := (andThen a b) (at level 65, right associativity).

Fixpoint forEach {A : Type} (l : list A) (k : A -> Action) : Action :=
  match l with
  | [] => skip
  | x :: l' => k x >> forEach l' k
  end.

Definition field {A : Type} (proj : Player -> A) (s : Sys) : A := proj (this s).

Definition getTracks (ms : nat) (s : Sys) : list nat :=
  default [] (streams (env s) !! ms).

Definition on_frame (a : nat) (f : Frame -> Frame) : Action :=
  update (fun w => set_frames (alter f a (frames w)) w).

Definition frame_of (a : nat) (s : Sys) : option Frame := frames (env s) !! a.

(** ** Methods of the element *)

(** [_cleanUp]. *)
Definition _cleanUp : Action :=
  read (field _remoteStream) (fun remoteStream =>
    match remoteStream with
    | Some ms =>
        read (getTracks ms) (fun tracks => forEach tracks (fun track => call (TrackStop track))) >>
        assign (set_remoteStream None)
    | None => skip
    end) >>
  read (field _videoEl) (fun videoEl =>
    if videoEl
    then call (VideoRemoveAttribute "src") >> call VideoLoad
    else skip) >>
  read (field _peerConnection) (fun peerConnection =>
    match peerConnection with
    | Some pc => call (PcClose pc) >> assign (set_peerConnection None)
    | None => skip
    end) >>
  read (field _unsub) (fun unsub =>
    match unsub with
    | Some sub => call (Unsubscribe sub)
    | None => skip
    end) >>
  assign (set_unsub None) >>
  assign (set_sessionId None) >>
  assign (set_candidatesList []).

Definition new_frame : Frame :=
  {| phase := AwaitClientConfig; candidates := "";
     icecandidate_listener := false; track_listener := None |}.

(** [_startWebRtc], up to [await fetchWebRtcClientConfiguration(...)].
    The new activation gets the next free index of [frames]. *)
Definition _startWebRtc : Action :=
  _cleanUp >>
  assign (set_error None) >>
  read (field entityid) (fun e => call (FetchWebRtcClientConfiguration e)) >>
  update (fun w => set_frames (frames w ++ [new_frame]) w).

(** [_startWebRtc], from the fulfilled configuration fetch up to
    [await this._peerConnection.createOffer(offerOptions)]. *)
Definition _startWebRtc_config (a : nat) (clientConfig : ClientConfig) : Action :=
  read (fun s => next_pc (env s)) (fun pc =>
    update (set_next_pc (S pc)) >>
    call (NewRTCPeerConnection pc (configuration clientConfig)) >>
    assign (set_peerConnection (Some pc)) >>
    (if truthy (dataChannel clientConfig)
     then call (CreateDataChannel pc (default "" (dataChannel clientConfig)))
     else skip) >>
    call (AddTransceiver pc Audio RecvOnly) >>
    call (AddTransceiver pc Video RecvOnly) >>
    on_frame a (set_candidates "") >>
    assign (set_candidatesList []) >>
    call (AddEventListener pc "icecandidate") >>
    on_frame a (set_icecandidate_listener true) >>
    call (CreateOffer pc true true) >>
    on_frame a (set_phase AwaitCreateOffer)).

(** [_startWebRtc], from the created offer up to
    [await this._peerConnection.setLocalDescription(offer)].  The field is
    read again here: when it is [undefined] the call is a TypeError and the
    activation ends. *)
Definition _startWebRtc_offer (a : nat) (sdp : string) : Action :=
  read (field _peerConnection) (fun peerConnection =>
    match peerConnection with
    | Some pc =>
        call (SetLocalDescription pc sdp) >>
        on_frame a (set_phase (AwaitSetLocalDescription sdp))
    | None => on_frame a (set_phase Thrown)
    end).

(** [_startWebRtc], from the installed local description to the end.
    [throws] is what [webRtcOffer] does when called: [Some message] when it
    throws an error with that message, [None] when it returns its promise. *)
Definition _startWebRtc_signal (a : nat) (sdp : string) (throws : option string) : Action :=
  read (frame_of a) (fun f =>
    let offer_sdp := sdp +:+ default "" (candidates <$> f) in
    read (field entityid) (fun e => call (WebRtcOffer e offer_sdp)) >>
    match throws with
    | Some message =>
        assign (set_error (Some ("Failed to start WebRTC stream: " +:+ message))) >>
        read (field _peerConnection) (fun peerConnection =>
          match peerConnection with
          | Some pc => call (PcClose pc) >> on_frame a (set_phase Returned)
          | None => on_frame a (set_phase Thrown)
          end)
    | None =>
        read (fun s => next_sub (env s)) (fun sub =>
          update (set_next_sub (S sub)) >>
          assign (set_unsub (Some sub))) >>
        read (fun s => length (streams (env s))) (fun ms =>
          update (fun w => set_streams (streams w ++ [[]]) w) >>
          call (NewMediaStream ms) >>
          read (field _peerConnection) (fun peerConnection =>
            match peerConnection with
            | Some pc =>
                call (AddEventListener pc "track") >>
                on_frame a (set_track_listener (Some ms)) >>
                assign (set_remoteStream (Some ms)) >>
                on_frame a (set_phase Returned)
            | None => on_frame a (set_phase Thrown)
            end))
    end).

Definition CRLF : string := String "013"%char (String "010"%char "").

(** The [icecandidate] listener registered by activation [a];
    [candidate] is [event.candidate?.candidate]. *)
Definition onicecandidate (a : nat) (candidate : option string) : Action :=
  if negb (truthy candidate)
  then skip
  else
    let c := default "" candidate in
    read (field _sessionId) (fun sessionId =>
      if truthy sessionId
      then read (field entityid) (fun e =>
             call (AddWebRtcCandidate e (default "" sessionId) c))
      else read (field _unsub) (fun unsub =>
             if defined unsub
             then assign (fun p => set_candidatesList (_candidatesList p ++ [c]) p)
             else on_frame a (fun f =>
                    set_candidates (candidates f +:+ "a=" +:+ c +:+ CRLF) f))).

(** The [track] listener: [remoteStream.addTrack(event.track)], then the
    assignment to [this._videoEl.srcObject] (a TypeError without a video
    element). *)
Definition ontrack (ms : nat) (track : nat) : Action :=
  call (StreamAddTrack ms track) >>
  update (fun w => set_streams (alter (fun ts => ts ++ [track]) ms (streams w)) w) >>
  read (field _videoEl) (fun videoEl =>
    if videoEl then call (VideoSetSrcObject ms) else skip).

(** [_handleAnswer], up to [await this._peerConnection?.setRemoteDescription]. *)
Definition _handleAnswer (answer : string) : Action :=
  read (field _peerConnection) (fun peerConnection =>
    match peerConnection with
    | Some pc =>
        call (SetRemoteDescription pc answer) >>
        update (fun w => set_remote_pending (remote_pending w ++ [pc]) w)
    | None => skip
    end).

(** The [catch] block of [_handleAnswer]. *)
Definition _handleAnswer_catch (message : string) : Action :=
  assign (set_error (Some ("Failed to connect WebRTC stream: " +:+ message))) >>
  read (field _peerConnection) (fun peerConnection =>
    match peerConnection with
    | Some pc => call (PcClose pc)
    | None => skip
    end).

(** [_handleOfferEvent]: three [if] statements in a row. *)
Definition _handleOfferEvent (event : WebRtcOfferEvent) : Action :=
  (match event with
   | SessionIdEvent session_id =>
       assign (set_sessionId (Some session_id)) >>
       read (field entityid) (fun e =>
         read (field _candidatesList) (fun l =>
           forEach l (fun candidate =>
             call (AddWebRtcCandidate e session_id candidate)))) >>
       assign (set_candidatesList [])
   | _ => skip
   end) >>
  (match event with
   | AnswerEvent answer => _handleAnswer answer
   | _ => skip
   end) >>
  (match event with
   | CandidateEvent candidate =>
       read (field _peerConnection) (fun peerConnection =>
         match peerConnection with
         | Some pc => call (AddIceCandidate pc candidate "0")
         | None => skip
         end)
   | _ => skip
   end).

(** [_loadedData]. *)
Definition _loadedData : Action := call (FireEvent "load").

(** [connectedCallback], [disconnectedCallback], [updated]. *)
Definition connectedCallback (hasUpdated : bool) : Action :=
  if hasUpdated then _startWebRtc else skip.

Definition disconnectedCallback : Action := _cleanUp.

Definition has (name : string) (changedProperties : list string) : bool :=
  existsb (String.eqb name) changedProperties.

Definition updated (changedProperties : list string) : Action :=
  if negb (has "entityid" changedProperties) then skip else _startWebRtc.

(** ** The event loop *)

Inductive Settled (A : Type) :=
| Fulfilled (value : A)
| RejectedWith (message : string).

Arguments Fulfilled {A} value.
Arguments RejectedWith {A} message.

(** What can happen to the element: a property assignment or lifecycle
    callback from the page, the settling of a promise an activation awaits,
    or an event delivered to one of its listeners. *)
Inductive Event :=
| SetEntityid (e : string)
| Updated (changedProperties : list string)
| Connected (hasUpdated : bool)
| Disconnected
| ClientConfigSettled (a : nat) (r : Settled ClientConfig)
| CreateOfferSettled (a : nat) (r : Settled string)
| SetLocalDescriptionSettled (a : nat) (r : Settled unit) (throws : option string)
| IceCandidate (a : nat) (candidate : option string)
| Track (a : nat) (track : nat)
| OfferEvent (event : WebRtcOfferEvent)
| SetRemoteDescriptionSettled (pc : nat) (r : Settled unit)
| LoadedData.

Definition phase_of (a : nat) (s : Sys) : option Phase := phase <$> frame_of a s.

Fixpoint remove_first (x : nat) (l : list nat) : list nat :=
  match l with
  | [] => []
  | y :: l' => if Nat.eqb x y then l' else y :: remove_first x l'
  end.

Definition step (ev : Event) : Action :=
  match ev with
  | SetEntityid e => assign (set_entityid e)
  | Updated changedProperties => updated changedProperties
  | Connected hasUpdated => connectedCallback hasUpdated
  | Disconnected => disconnectedCallback
  | ClientConfigSettled a r =>
      read (phase_of a) (fun ph =>
        match ph, r with
        | Some AwaitClientConfig, Fulfilled clientConfig => _startWebRtc_config a clientConfig
        | Some AwaitClientConfig, RejectedWith _ => on_frame a (set_phase Thrown)
        | _, _ => skip
        end)
  | CreateOfferSettled a r =>
      read (phase_of a) (fun ph =>
        match ph, r with
        | Some AwaitCreateOffer, Fulfilled sdp => _startWebRtc_offer a sdp
        | Some AwaitCreateOffer, RejectedWith _ => on_frame a (set_phase Thrown)
        | _, _ => skip
        end)
  | SetLocalDescriptionSettled a r throws =>
      read (phase_of a) (fun ph =>
        match ph, r with
        | Some (AwaitSetLocalDescription sdp), Fulfilled _ => _startWebRtc_signal a sdp throws
        | Some (AwaitSetLocalDescription _), RejectedWith _ => on_frame a (set_phase Thrown)
        | _, _ => skip
        end)
  | IceCandidate a candidate =>
      read (frame_of a) (fun f =>
        if default false (icecandidate_listener <$> f)
        then onicecandidate a candidate
        else skip)
  | Track a track =>
      read (frame_of a) (fun f =>
        match f ≫= track_listener with
        | Some ms => ontrack ms track
        | None => skip
        end)
  | OfferEvent event => _handleOfferEvent event
  | SetRemoteDescriptionSettled pc r =>
      read (fun s => remote_pending (env s)) (fun l =>
        if existsb (Nat.eqb pc) l
        then update (set_remote_pending (remove_first pc l)) >>
             match r with
             | Fulfilled _ => skip
             | RejectedWith message => _handleAnswer_catch message
             end
        else skip)
  | LoadedData => _loadedData
  end.

Fixpoint run (evs : list Event) : Action :=
  match evs with
  | [] => skip
  | ev :: evs' => step ev >> run evs'
  end.

(** A freshly constructed element, before its first update. *)
Definition initial (e : string) : Sys :=
  {| this := {| entityid := e; _error := None; _videoEl := true;
                _peerConnection := None; _remoteStream := None;
                _unsub := None; _sessionId := None; _candidatesList := [] |};
     env := {| frames := []; streams := []; next_pc := 0; next_sub := 0;
               remote_pending := [] |} |}.

(** The peer connections a call log has created and not closed. *)
Fixpoint live_from (open : list nat) (log : list Call) : list nat :=
  match log with
  | [] => open
  | NewRTCPeerConnection pc _ :: log' => live_from (open ++ [pc]) log'
  | PcClose pc :: log' => live_from (filter (fun x => x ≠ pc) open) log'
  | _ :: log' => live_from open log'
  end.

Definition live (log : list Call) : list nat := live_from [] log.

(** * Properties *)

(** ** Actions *)

Lemma andThen_eq (a b : Action) (s : Sys) :
  (a >> b) s = (fst (b (fst (a s))), snd (a s) ++ snd (b (fst (a s)))).
Proof.
  unfold andThen. destruct (a s) as [s1 c1]. simpl.
  destruct (b s1) as [s2 c2]. reflexivity.
Qed.

Lemma forEach_call {A : Type} (g : A -> Call) (l : list A) (s : Sys) :
  forEach l (fun x => call (g x)) s = (s, g <$> l).
Proof.
  induction l as [|x l IH]; simpl; [reflexivity|].
  unfold andThen, call at 1. rewrite IH. reflexivity.
Qed.

Lemma run_app (evs1 evs2 : list Event) (s : Sys) :
  run (evs1 ++ evs2) s = (run evs1 >> run evs2) s.
Proof.
  revert s. induction evs1 as [|ev evs1 IH]; intros s; simpl.
  - unfold andThen, skip. destruct (run evs2 s). reflexivity.
  - unfold andThen. destruct (step ev s) as [s1 c1].
    fold (andThen (run evs1) (run evs2)). rewrite IH. unfold andThen.
    destruct (run evs1 s1) as [s2 c2]. destruct (run evs2 s2) as [s3 c3].
    rewrite app_assoc. reflexivity.
Qed.

(** ** [_cleanUp] in closed form *)

Definition released (p : Player) : Player :=
  {| entityid := entityid p; _error := _error p; _videoEl := _videoEl p;
     _peerConnection := None; _remoteStream := None; _unsub := None;
     _sessionId := None; _candidatesList := [] |}.

Definition release_calls (s : Sys) : list Call :=
  match _remoteStream (this s) with
  | Some ms => TrackStop <$> getTracks ms s
  | None => []
  end ++
  (if _videoEl (this s) then [VideoRemoveAttribute "src"; VideoLoad] else []) ++
  match _peerConnection (this s) with
  | Some pc => [PcClose pc]
  | None => []
  end ++
  match _unsub (this s) with
  | Some sub => [Unsubscribe sub]
  | None => []
  end.

Lemma cleanUp_eq (s : Sys) :
  _cleanUp s = ({| this := released (this s); env := env s |}, release_calls s).
Proof.
  destruct s as [p w]. destruct p as [e err v pc rs u sid cl].
  unfold _cleanUp, release_calls, released, andThen, read, field, getTracks.
  simpl. destruct rs as [ms|]; simpl; rewrite ?forEach_call;
    destruct v, pc, u; simpl; rewrite ?app_nil_r; reflexivity.
Qed.

Lemma startWebRtc_eq (s : Sys) :
  _startWebRtc s =
  ({| this := set_error None (released (this s));
      env := set_frames (frames (env s) ++ [new_frame]) (env s) |},
   release_calls s ++ [FetchWebRtcClientConfiguration (entityid (this s))]).
Proof.
  unfold _startWebRtc. rewrite andThen_eq, cleanUp_eq. reflexivity.
Qed.

(** X18: after the [_cleanUp] modelled above (the one that also releases
    the subscription; the copy in [ComponentsCopy] differs) the connection
    object, the remote media handle, the session identifier and the
    signalling-unsubscribe handle are [undefined] and the pending-candidate
    list is empty, whatever the state before. *)
Theorem cleanUp_discards_session_handles (s : Sys) :
  let p := this (fst (_cleanUp s)) in
  _peerConnection p = None /\
  _remoteStream p = None /\
  _sessionId p = None /\
  _candidatesList p = [] /\
  _unsub p = None.
Proof. rewrite cleanUp_eq. simpl. repeat split. Qed.

(** [disconnectedCallback] and the start of a new attempt both go through
    [_cleanUp]. *)
Lemma disconnected_discards (s : Sys) :
  this (fst (step Disconnected s)) = released (this s).
Proof. simpl. unfold disconnectedCallback. rewrite cleanUp_eq. reflexivity. Qed.

(** ** Signalling events *)

Lemma handle_session_id_eq (sid : string) (s : Sys) :
  _handleOfferEvent (SessionIdEvent sid) s =
  ({| this := set_candidatesList [] (set_sessionId (Some sid) (this s));
      env := env s |},
   AddWebRtcCandidate (entityid (this s)) sid <$> _candidatesList (this s)).
Proof.
  unfold _handleOfferEvent. rewrite !andThen_eq.
  unfold read, field. simpl. rewrite forEach_call. simpl.
  rewrite !app_nil_r. reflexivity.
Qed.

(** C10: handling a [session_id] event submits every buffered candidate
    with the received session id, in buffering order, and leaves the
    pending list empty; a further [session_id] event then submits nothing,
    so none is submitted twice. *)
Theorem session_id_flushes_pending (sid sid' : string) (s : Sys) :
  let r := step (OfferEvent (SessionIdEvent sid)) s in
  snd r = (AddWebRtcCandidate (entityid (this s)) sid <$> _candidatesList (this s)) /\
  _candidatesList (this (fst r)) = [] /\
  _sessionId (this (fst r)) = Some sid /\
  snd (step (OfferEvent (SessionIdEvent sid')) (fst r)) = [].
Proof.
  simpl. rewrite !handle_session_id_eq. simpl. repeat split.
Qed.

(** ** Local ICE candidates *)

Definition sdp_line (c : string) : string := "a=" +:+ c +:+ CRLF.

Definition push_candidate (c : string) (p : Player) : Player :=
  set_candidatesList (_candidatesList p ++ [c]) p.

Definition append_line (a : nat) (c : string) (w : Env) : Env :=
  set_frames (alter (fun f => set_candidates (candidates f +:+ sdp_line c) f) a (frames w)) w.

Lemma truthy_Some (v : option string) :
  truthy v = true <-> exists c, v = Some c /\ c <> "".
Proof.
  destruct v as [c|]; simpl.
  - rewrite negb_true_iff. split.
    + intros H. exists c. split; [reflexivity|]. intros ->. discriminate.
    + intros (c' & [= <-] & Hne). apply String.eqb_neq. exact Hne.
  - split; [discriminate|]. intros (c & H & _). discriminate.
Qed.

(** C9: a local ICE candidate event is dispatched in exactly one of four
    ways.  With a missing or empty candidate string nothing happens.
    Otherwise, when [_sessionId] is known (a non-empty string) the candidate
    is submitted at once and the state is unchanged; else when [_unsub]
    exists it is appended to [_candidatesList] without a call; else the line
    ["a=<candidate>\r\n"] is appended to the activation's offer SDP suffix
    without a call. *)
Theorem ice_candidate_dispatch (a : nat) (candidate : option string) (s : Sys) (f : Frame) :
  frame_of a s = Some f ->
  icecandidate_listener f = true ->
  (candidate = None \/ candidate = Some "" ->
     step (IceCandidate a candidate) s = (s, [])) /\
  (forall c sid, candidate = Some c -> c <> "" ->
     _sessionId (this s) = Some sid -> sid <> "" ->
     step (IceCandidate a candidate) s =
       (s, [AddWebRtcCandidate (entityid (this s)) sid c])) /\
  (forall c sub, candidate = Some c -> c <> "" ->
     truthy (_sessionId (this s)) = false ->
     _unsub (this s) = Some sub ->
     step (IceCandidate a candidate) s =
       ({| this := push_candidate c (this s); env := env s |}, [])) /\
  (forall c, candidate = Some c -> c <> "" ->
     truthy (_sessionId (this s)) = false ->
     _unsub (this s) = None ->
     step (IceCandidate a candidate) s =
       ({| this := this s; env := append_line a c (env s) |}, [])).
Proof.
  intros Hf Hl. unfold step, read. rewrite Hf. simpl. rewrite Hl.
  unfold onicecandidate.
  split; [|split; [|split]].
  - intros [-> | ->]; reflexivity.
  - intros c sid -> Hc Hs Hsid.
    assert (truthy (Some c) = true) as -> by (apply truthy_Some; eauto).
    simpl. unfold read, field. rewrite Hs.
    assert (truthy (Some sid) = true) as -> by (apply truthy_Some; eauto).
    reflexivity.
  - intros c sub -> Hc Hs Hu.
    assert (truthy (Some c) = true) as -> by (apply truthy_Some; eauto).
    simpl. unfold read, field. rewrite Hs, Hu. reflexivity.
  - intros c -> Hc Hs Hu.
    assert (truthy (Some c) = true) as -> by (apply truthy_Some; eauto).
    simpl. unfold read, field. rewrite Hs, Hu. simpl.
    unfold on_frame, update, append_line, sdp_line. simpl.
    destruct s; reflexivity.
Qed.

Lemma ice_candidate_dispatch_witness :
  step (IceCandidate 0 (Some "c"))
    {| this := this (initial "cam");
       env := set_frames [set_icecandidate_listener true new_frame] (env (initial "cam")) |}
  = ({| this := this (initial "cam");
        env := append_line 0 "c"
                 (set_frames [set_icecandidate_listener true new_frame] (env (initial "cam"))) |},
     []).
Proof.
  refine (proj2 (proj2 (proj2
    (ice_candidate_dispatch 0 (Some "c") _ (set_icecandidate_listener true new_frame)
       _ _))) "c" _ _ _ _);
    first [reflexivity | discriminate].
Defined.

(** ** The continuations of [_startWebRtc] in closed form *)

Definition config_calls (pc : nat) (clientConfig : ClientConfig) : list Call :=
  NewRTCPeerConnection pc (configuration clientConfig) ::
  (if truthy (dataChannel clientConfig)
   then [CreateDataChannel pc (default "" (dataChannel clientConfig))]
   else []) ++
  [AddTransceiver pc Audio RecvOnly; AddTransceiver pc Video RecvOnly;
   AddEventListener pc "icecandidate"; CreateOffer pc true true].

Lemma config_eq (a : nat) (clientConfig : ClientConfig) (s : Sys) :
  _startWebRtc_config a clientConfig s =
  ({| this := set_candidatesList [] (set_peerConnection (Some (next_pc (env s))) (this s));
      env := set_frames
               (alter (set_phase AwaitCreateOffer) a
                  (alter (set_icecandidate_listener true) a
                     (alter (set_candidates "") a (frames (env s)))))
               (set_next_pc (S (next_pc (env s))) (env s)) |},
   config_calls (next_pc (env s)) clientConfig).
Proof.
  destruct s as [p w]. destruct w as [fr st npc nsub rp].
  unfold _startWebRtc_config, config_calls, andThen, read, call, assign,
    update, on_frame, skip. simpl.
  destruct (truthy (dataChannel clientConfig)); simpl;
    reflexivity.
Qed.

Lemma offer_eq (a : nat) (sdp : string) (s : Sys) :
  _startWebRtc_offer a sdp s =
  match _peerConnection (this s) with
  | Some pc =>
      ({| this := this s;
          env := set_frames (alter (set_phase (AwaitSetLocalDescription sdp)) a
                               (frames (env s))) (env s) |},
       [SetLocalDescription pc sdp])
  | None =>
      ({| this := this s;
          env := set_frames (alter (set_phase Thrown) a (frames (env s))) (env s) |},
       [])
  end.
Proof.
  destruct s as [p w].
  unfold _startWebRtc_offer, andThen, read, field, call, update, on_frame. simpl.
  destruct (_peerConnection p); reflexivity.
Qed.

Definition offer_sdp_of (a : nat) (sdp : string) (s : Sys) : string :=
  sdp +:+ default "" (candidates <$> frame_of a s).

Lemma signal_throws_eq (a : nat) (sdp message : string) (s : Sys) :
  _startWebRtc_signal a sdp (Some message) s =
  ({| this := set_error (Some ("Failed to start WebRTC stream: " +:+ message)) (this s);
      env := set_frames
               (alter (set_phase (if defined (_peerConnection (this s))
                                  then Returned else Thrown)) a (frames (env s)))
               (env s) |},
   WebRtcOffer (entityid (this s)) (offer_sdp_of a sdp s) ::
   match _peerConnection (this s) with
   | Some pc => [PcClose pc]
   | None => []
   end).
Proof.
  destruct s as [p w].
  unfold _startWebRtc_signal, offer_sdp_of, andThen, read, field, call, assign,
    update, on_frame. simpl.
  destruct (_peerConnection p); reflexivity.
Qed.

Lemma signal_returns_eq (a : nat) (sdp : string) (s : Sys) :
  _startWebRtc_signal a sdp None s =
  let ms := length (streams (env s)) in
  let w := set_streams (streams (env s) ++ [[]])
             (set_next_sub (S (next_sub (env s))) (env s)) in
  match _peerConnection (this s) with
  | Some pc =>
      ({| this := set_remoteStream (Some ms)
                    (set_unsub (Some (next_sub (env s))) (this s));
          env := set_frames
                   (alter (set_phase Returned) a
                      (alter (set_track_listener (Some ms)) a (frames (env s)))) w |},
       [WebRtcOffer (entityid (this s)) (offer_sdp_of a sdp s);
        NewMediaStream ms; AddEventListener pc "track"])
  | None =>
      ({| this := set_unsub (Some (next_sub (env s))) (this s);
          env := set_frames (alter (set_phase Thrown) a (frames (env s))) w |},
       [WebRtcOffer (entityid (this s)) (offer_sdp_of a sdp s); NewMediaStream ms])
  end.
Proof.
  destruct s as [p w]. destruct w as [fr st npc nsub rp].
  unfold _startWebRtc_signal, offer_sdp_of, andThen, read, field, call, assign,
    update, on_frame. simpl.
  destruct (_peerConnection p); reflexivity.
Qed.

Lemma lookup_new_frame (fr : list Frame) :
  (fr ++ [new_frame]) !! length fr = Some new_frame.
Proof. apply list_lookup_middle. reflexivity. Qed.

Lemma render_error (p : Player) (prefix message : string) :
  prefix <> "" ->
  _error p = Some (prefix +:+ message) ->
  render p = HaAlert (prefix +:+ message).
Proof.
  intros Hne He. unfold render. rewrite He.
  destruct prefix as [|ch prefix]; [congruence|]. reflexivity.
Qed.

(** ** Failures *)

(** X17: when [webRtcOffer] throws, [_error] becomes the message
    ["Failed to start WebRTC stream: ..."], [render] returns the alert
    instead of the video element, and the only call after the failed one
    closes the connection [_peerConnection] holds at that moment (none
    when the field is [undefined]).  When [setRemoteDescription] rejects
    right after the answer event, [_error] becomes
    ["Failed to connect WebRTC stream: ..."], [render] returns the alert,
    and the connection the answer was applied to is closed. *)
Theorem offer_and_answer_failures_surface (s : Sys) (message : string) :
  (forall a f sdp,
     frame_of a s = Some f ->
     phase f = AwaitSetLocalDescription sdp ->
     let r := step (SetLocalDescriptionSettled a (Fulfilled ()) (Some message)) s in
     _error (this (fst r)) = Some ("Failed to start WebRTC stream: " +:+ message) /\
     render (this (fst r)) = HaAlert ("Failed to start WebRTC stream: " +:+ message) /\
     snd r = WebRtcOffer (entityid (this s)) (sdp +:+ candidates f) ::
             match _peerConnection (this s) with
             | Some pc => [PcClose pc]
             | None => []
             end) /\
  (forall pc answer,
     _peerConnection (this s) = Some pc ->
     let r := run [OfferEvent (AnswerEvent answer);
                   SetRemoteDescriptionSettled pc (RejectedWith message)] s in
     _error (this (fst r)) = Some ("Failed to connect WebRTC stream: " +:+ message) /\
     render (this (fst r)) = HaAlert ("Failed to connect WebRTC stream: " +:+ message) /\
     snd r = [SetRemoteDescription pc answer; PcClose pc]).
Proof.
  split.
  - intros a f sdp Hf Hp. simpl. unfold read, phase_of. rewrite Hf. simpl.
    rewrite Hp, signal_throws_eq. simpl. unfold offer_sdp_of. rewrite Hf. simpl.
    split; [reflexivity|]. split; [|reflexivity].
    apply render_error; [discriminate|reflexivity].
  - intros pc answer Hpc. destruct s as [p w]. simpl in Hpc.
    simpl. unfold _handleOfferEvent, _handleAnswer, _handleAnswer_catch,
      andThen, read, field, call, assign, update, skip. simpl.
    rewrite Hpc. simpl.
    assert (existsb (Nat.eqb pc) (remote_pending w ++ [pc]) = true) as ->.
    { rewrite existsb_app. simpl. rewrite Nat.eqb_refl. apply orb_true_iff.
      right. reflexivity. }
    simpl. rewrite Hpc. simpl.
    split; [reflexivity|]. split; [|reflexivity].
    apply render_error; [discriminate|reflexivity].
Qed.

Lemma offer_and_answer_failures_surface_witness :
  let s := {| this := set_peerConnection (Some 0) (this (initial "camera.door"));
              env := env (initial "camera.door") |} in
  let r := run [OfferEvent (AnswerEvent "v=0");
                SetRemoteDescriptionSettled 0 (RejectedWith "bad answer")] s in
  _peerConnection (this s) = Some 0 /\
  render (this (fst r)) = HaAlert "Failed to connect WebRTC stream: bad answer" /\
  snd r = [SetRemoteDescription 0 "v=0"; PcClose 0].
Proof.
  split; [reflexivity|].
  pose proof (proj2 (offer_and_answer_failures_surface
    {| this := set_peerConnection (Some 0) (this (initial "camera.door"));
       env := env (initial "camera.door") |} "bad answer") 0 "v=0" eq_refl) as H.
  split; [exact (proj1 (proj2 H)) | exact (proj2 (proj2 H))].
Defined.

(** A rejected [setRemoteDescription] sets the error whatever happened in
    between; the connection closed is the one the field holds by then. *)
Lemma answer_rejection_sets_error (s : Sys) (pc : nat) (message : string) :
  pc ∈ remote_pending (env s) ->
  let r := step (SetRemoteDescriptionSettled pc (RejectedWith message)) s in
  _error (this (fst r)) = Some ("Failed to connect WebRTC stream: " +:+ message) /\
  snd r = match _peerConnection (this s) with
          | Some pc' => [PcClose pc']
          | None => []
          end.
Proof.
  intros Hin. destruct s as [p w]. simpl in Hin. simpl. unfold read. simpl.
  assert (existsb (Nat.eqb pc) (remote_pending w) = true) as ->.
  { apply existsb_exists. exists pc. split; [|apply Nat.eqb_refl].
    apply list_elem_of_In. exact Hin. }
  unfold _handleAnswer_catch, andThen, read, field, call, assign, update, skip.
  simpl. destruct (_peerConnection p); split; reflexivity.
Qed.

(** C1: a rejected configuration fetch is not caught.  Right after an
    attempt has started, the rejection ends the activation with no call at
    all; [_error] stays [undefined], [render] still returns the video
    element, and no peer connection exists that could be closed. *)
Theorem config_fetch_failure_not_surfaced (s : Sys) (message : string) :
  let s1 := fst (_startWebRtc s) in
  let a := length (frames (env s)) in
  let r := step (ClientConfigSettled a (RejectedWith message)) s1 in
  phase_of a s1 = Some AwaitClientConfig /\
  snd r = [] /\
  _error (this (fst r)) = None /\
  render (this (fst r)) = VideoElement /\
  _peerConnection (this (fst r)) = None /\
  phase_of a (fst r) = Some Thrown.
Proof.
  rewrite startWebRtc_eq. simpl. unfold read, phase_of, frame_of. simpl.
  rewrite lookup_new_frame. simpl.
  unfold on_frame, update. simpl.
  rewrite list_lookup_alter_eq, lookup_new_frame. repeat split.
Qed.

Example config_fetch_failure_trace :
  run [Updated ["entityid"]; ClientConfigSettled 0 (RejectedWith "unsupported")]
      (initial "camera.door")
  = (fst (run [Updated ["entityid"]; ClientConfigSettled 0 (RejectedWith "unsupported")]
             (initial "camera.door")),
     [VideoRemoveAttribute "src"; VideoLoad;
      FetchWebRtcClientConfiguration "camera.door"]).
Proof. reflexivity. Qed.

(** ** One connection at a time *)

(** A new attempt first releases what the previous one left in the
    fields: every track of the remote stream is stopped, the peer
    connection is closed and the unsubscribe callback is registered on the
    subscription promise (it runs when the promise resolves), and then the
    configuration is fetched. *)
Lemma start_releases_previous (s : Sys) (pc ms sub : nat) :
  _peerConnection (this s) = Some pc ->
  _remoteStream (this s) = Some ms ->
  _unsub (this s) = Some sub ->
  snd (_startWebRtc s) =
    (TrackStop <$> getTracks ms s) ++
    (if _videoEl (this s) then [VideoRemoveAttribute "src"; VideoLoad] else []) ++
    [PcClose pc; Unsubscribe sub;
     FetchWebRtcClientConfiguration (entityid (this s))].
Proof.
  intros Hpc Hms Hsub. rewrite startWebRtc_eq. simpl. unfold release_calls.
  rewrite Hpc, Hms, Hsub. rewrite <- !app_assoc. reflexivity.
Qed.

Definition overlapping_attempts (c1 c2 : ClientConfig) : list Event :=
  [Updated ["entityid"]; Updated ["entityid"];
   ClientConfigSettled 0 (Fulfilled c1); ClientConfigSettled 1 (Fulfilled c2)].

(** C4: two attempts started before either configuration has arrived
    leave two peer connections open: the second attempt's [_cleanUp] ran
    when [_peerConnection] was still [undefined], and the second
    configuration overwrites the field without closing the first
    connection. *)
Theorem overlapping_attempts_leave_two_connections (c1 c2 : ClientConfig) :
  let r := run (overlapping_attempts c1 c2) (initial "camera.door") in
  live (snd r) = [0; 1] /\
  _peerConnection (this (fst r)) = Some 1 /\
  ~ In (PcClose 0) (snd r).
Proof.
  destruct c1 as [k1 [[|ch1 d1]|]], c2 as [k2 [[|ch2 d2]|]];
    (split; [reflexivity|]; split; [reflexivity|]);
    cbn; intros H; repeat (destruct H as [H|H]; [discriminate|]); exact H.
Qed.

(** ** Who calls what *)

Definition starts_attempt (ev : Event) : bool :=
  match ev with
  | Updated changedProperties => has "entityid" changedProperties
  | Connected hasUpdated => hasUpdated
  | _ => false
  end.

Definition runs_cleanUp (ev : Event) : bool :=
  match ev with
  | Updated _ | Connected _ | Disconnected => true
  | _ => false
  end.

(** [may_call ev c]: handling [ev] can make the call [c]. *)
Definition may_call (ev : Event) (c : Call) : bool :=
  match c with
  | FetchWebRtcClientConfiguration _ => starts_attempt ev
  | TrackStop _ | VideoRemoveAttribute _ | VideoLoad | Unsubscribe _ => runs_cleanUp ev
  | PcClose _ =>
      match ev with
      | SetLocalDescriptionSettled _ (Fulfilled _) (Some _)
      | SetRemoteDescriptionSettled _ (RejectedWith _) => true
      | _ => runs_cleanUp ev
      end
  | NewRTCPeerConnection _ _ | CreateDataChannel _ _ =>
      match ev with ClientConfigSettled _ (Fulfilled _) => true | _ => false end
  | AddTransceiver _ _ direction =>
      match ev, direction with
      | ClientConfigSettled _ (Fulfilled _), RecvOnly => true
      | _, _ => false
      end
  | CreateOffer _ offerToReceiveAudio offerToReceiveVideo =>
      match ev with
      | ClientConfigSettled _ (Fulfilled _) => offerToReceiveAudio && offerToReceiveVideo
      | _ => false
      end
  | AddEventListener _ type =>
      match ev with
      | ClientConfigSettled _ (Fulfilled _) => String.eqb type "icecandidate"
      | SetLocalDescriptionSettled _ (Fulfilled _) None => String.eqb type "track"
      | _ => false
      end
  | SetLocalDescription _ _ =>
      match ev with CreateOfferSettled _ (Fulfilled _) => true | _ => false end
  | WebRtcOffer _ _ =>
      match ev with SetLocalDescriptionSettled _ (Fulfilled _) _ => true | _ => false end
  | NewMediaStream _ =>
      match ev with SetLocalDescriptionSettled _ (Fulfilled _) None => true | _ => false end
  | AddWebRtcCandidate _ _ _ =>
      match ev with
      | IceCandidate _ _ | OfferEvent (SessionIdEvent _) => true
      | _ => false
      end
  | SetRemoteDescription _ _ =>
      match ev with OfferEvent (AnswerEvent _) => true | _ => false end
  | AddIceCandidate _ _ _ =>
      match ev with OfferEvent (CandidateEvent _) => true | _ => false end
  | StreamAddTrack _ _ | VideoSetSrcObject _ =>
      match ev with Track _ _ => true | _ => false end
  | FireEvent type =>
      match ev with LoadedData => String.eqb type "load" | _ => false end
  | PcAddTrack _ _ => false
  end.

Section Emits.

Variable P : Call -> Prop.

Definition emits (a : Action) : Prop := forall s, Forall P (snd (a s)).

Lemma emits_skip : emits skip.
Proof. intros s. constructor. Qed.

Lemma emits_call (c : Call) : P c -> emits (call c).
Proof. intros H s. repeat constructor. exact H. Qed.

Lemma emits_assign (f : Player -> Player) : emits (assign f).
Proof. intros s. constructor. Qed.

Lemma emits_update (f : Env -> Env) : emits (update f).
Proof. intros s. constructor. Qed.

Lemma emits_andThen (a b : Action) : emits a -> emits b -> emits (a >> b).
Proof.
  intros Ha Hb s. rewrite andThen_eq. simpl. apply Forall_app. split; auto.
Qed.

Lemma emits_read {A : Type} (g : Sys -> A) (k : A -> Action) :
  (forall x, emits (k x)) -> emits (read g k).
Proof. intros H s. apply H. Qed.

Lemma emits_forEach {A : Type} (l : list A) (k : A -> Action) :
  (forall x, emits (k x)) -> emits (forEach l k).
Proof.
  intros H. induction l as [|x l IH]; simpl.
  - apply emits_skip.
  - apply emits_andThen; auto.
Qed.

End Emits.

Ltac emits_step :=
  lazymatch goal with
  | |- emits _ skip => apply emits_skip
  | |- emits _ (assign _) => apply emits_assign
  | |- emits _ (update _) => apply emits_update
  | |- emits _ (andThen _ _) => apply emits_andThen
  | |- emits _ (read _ _) => apply emits_read; intros ?
  | |- emits _ (forEach _ _) => apply emits_forEach; intros ?
  | |- emits _ (call _) => apply emits_call; first [reflexivity | simpl; assumption]
  | |- emits _ (match ?x with _ => _ end) => destruct x
  end.

Ltac emits_auto := repeat emits_step.

Lemma step_emits (ev : Event) : emits (fun c => may_call ev c = true) (step ev).
Proof.
  destruct ev; unfold step, updated, connectedCallback, disconnectedCallback.
  2: destruct (has "entityid" changedProperties) eqn:Hh; simpl.
  4: destruct hasUpdated eqn:Hh.
  all: unfold _startWebRtc, _cleanUp, _startWebRtc_config, _startWebRtc_offer,
    _startWebRtc_signal, onicecandidate, ontrack, _handleOfferEvent,
    _handleAnswer, _handleAnswer_catch, _loadedData, on_frame;
    emits_auto.
Qed.

(** Every call made while handling [ev] is one [may_call] allows. *)
Lemma step_calls (ev : Event) (s : Sys) (c : Call) :
  c ∈ snd (step ev s) -> may_call ev c = true.
Proof.
  intros Hin. pose proof (step_emits ev s) as H.
  rewrite Forall_forall in H. auto.
Qed.

Section Keeps.

Context {A : Type} (q : Env -> A).

Definition keeps (a : Action) : Prop := forall s, q (env (fst (a s))) = q (env s).

Lemma keeps_skip : keeps skip.
Proof. intros s. reflexivity. Qed.

Lemma keeps_call (c : Call) : keeps (call c).
Proof. intros s. reflexivity. Qed.

Lemma keeps_assign (f : Player -> Player) : keeps (assign f).
Proof. intros s. reflexivity. Qed.

Lemma keeps_update (f : Env -> Env) : (forall w, q (f w) = q w) -> keeps (update f).
Proof. intros H s. apply H. Qed.

Lemma keeps_andThen (a b : Action) : keeps a -> keeps b -> keeps (a >> b).
Proof. intros Ha Hb s. rewrite andThen_eq. simpl. rewrite Hb. apply Ha. Qed.

Lemma keeps_read {B : Type} (g : Sys -> B) (k : B -> Action) :
  (forall x, keeps (k x)) -> keeps (read g k).
Proof. intros H s. apply H. Qed.

Lemma keeps_forEach {B : Type} (l : list B) (k : B -> Action) :
  (forall x, keeps (k x)) -> keeps (forEach l k).
Proof.
  intros H. induction l as [|x l IH]; simpl.
  - apply keeps_skip.
  - apply keeps_andThen; auto.
Qed.

End Keeps.

Ltac keeps_step :=
  lazymatch goal with
  | |- keeps _ skip => apply keeps_skip
  | |- keeps _ (call _) => apply keeps_call
  | |- keeps _ (assign _) => apply keeps_assign
  | |- keeps _ (update _) => apply keeps_update; intros ?; reflexivity
  | |- keeps _ (andThen _ _) => apply keeps_andThen
  | |- keeps _ (read _ _) => apply keeps_read; intros ?
  | |- keeps _ (forEach _ _) => apply keeps_forEach; intros ?
  | |- keeps _ (match ?x with _ => _ end) => destruct x
  end.

Ltac keeps_auto := repeat keeps_step.

Ltac unfold_handlers :=
  unfold step, updated, connectedCallback, disconnectedCallback,
    _startWebRtc, _cleanUp, _startWebRtc_config, _startWebRtc_offer,
    _startWebRtc_signal, onicecandidate, ontrack, _handleOfferEvent,
    _handleAnswer, _handleAnswer_catch, _loadedData, on_frame.

Definition creates_connection (ev : Event) : bool :=
  match ev with
  | ClientConfigSettled _ (Fulfilled _) => true
  | _ => false
  end.

Lemma step_keeps_next_pc (ev : Event) :
  creates_connection ev = false -> keeps next_pc (step ev).
Proof.
  intros Hev. destruct ev; try discriminate Hev; unfold_handlers; keeps_auto.
  discriminate Hev.
Qed.

Lemma config_step_eq (a : nat) (clientConfig : ClientConfig) (s : Sys) :
  step (ClientConfigSettled a (Fulfilled clientConfig)) s =
  match phase_of a s with
  | Some AwaitClientConfig => _startWebRtc_config a clientConfig s
  | _ => (s, [])
  end.
Proof.
  simpl. unfold read. destruct (phase_of a s) as [[]|]; reflexivity.
Qed.

(** ** The [load] event *)

(** The types of the UI events a call log fires. *)
Fixpoint fired (log : list Call) : list string :=
  match log with
  | [] => []
  | FireEvent type :: log' => type :: fired log'
  | _ :: log' => fired log'
  end.

Lemma fired_app (l1 l2 : list Call) : fired (l1 ++ l2) = fired l1 ++ fired l2.
Proof.
  induction l1 as [|c l1 IH]; simpl; [reflexivity|].
  destruct c; simpl; rewrite ?IH; reflexivity.
Qed.

Definition loadeddata_fires (ev : Event) : list string :=
  match ev with
  | LoadedData => ["load"]
  | _ => []
  end.

Lemma fired_none (ev : Event) (log : list Call) :
  (forall type, may_call ev (FireEvent type) = false) ->
  Forall (fun c => may_call ev c = true) log ->
  fired log = [].
Proof.
  intros Hno H. induction H as [|c l Hc _ IH]; [reflexivity|].
  destruct c; try exact IH. rewrite Hno in Hc. discriminate.
Qed.

Lemma step_fired (ev : Event) (s : Sys) :
  fired (snd (step ev s)) = loadeddata_fires ev.
Proof.
  destruct ev; try reflexivity;
    (eapply fired_none; [|apply step_emits]); intros type; reflexivity.
Qed.

(** C6: the UI events the element fires are exactly one ["load"] per
    [loadeddata] event of the video element, in the same order; no other
    event makes it fire anything. *)
Theorem load_fired_exactly_on_loadeddata (evs : list Event) (s : Sys) :
  fired (snd (run evs s)) = concat (loadeddata_fires <$> evs).
Proof.
  revert s. induction evs as [|ev evs IH]; intros s; simpl; [reflexivity|].
  rewrite andThen_eq. simpl. rewrite fired_app, step_fired, IH. reflexivity.
Qed.

(** ** Receive-only transport *)

(** The calls that set up the media direction of connection [pc]. *)
Definition sets_up (pc : nat) (c : Call) : bool :=
  match c with
  | NewRTCPeerConnection pc' _ | AddTransceiver pc' _ _ | CreateOffer pc' _ _ =>
      Nat.eqb pc pc'
  | _ => false
  end.

Definition setup (pc : nat) (log : list Call) : list Call :=
  List.filter (sets_up pc) log.

Definition receive_only (c : Call) : bool :=
  match c with
  | AddTransceiver _ _ RecvOnly => true
  | AddTransceiver _ _ _ => false
  | CreateOffer _ offerToReceiveAudio offerToReceiveVideo =>
      offerToReceiveAudio && offerToReceiveVideo
  | PcAddTrack _ _ => false
  | _ => true
  end.

Definition receive_only_setup (pc : nat) (configuration : string) : list Call :=
  [NewRTCPeerConnection pc configuration;
   AddTransceiver pc Audio RecvOnly; AddTransceiver pc Video RecvOnly;
   CreateOffer pc true true].

Lemma may_call_receive_only (ev : Event) (c : Call) :
  may_call ev c = true -> receive_only c = true.
Proof.
  destruct c; try reflexivity; simpl.
  - destruct ev; try discriminate. destruct r; try discriminate.
    destruct direction; try discriminate. reflexivity.
  - destruct ev; try discriminate. destruct r; try discriminate. auto.
  - discriminate.
Qed.

Lemma setup_config_calls (pc n : nat) (clientConfig : ClientConfig) :
  setup pc (config_calls n clientConfig) =
  if Nat.eqb pc n then receive_only_setup n (configuration clientConfig) else [].
Proof.
  unfold setup, config_calls, receive_only_setup. simpl.
  rewrite List.filter_app. simpl.
  assert (List.filter (sets_up pc)
            (if truthy (dataChannel clientConfig)
             then [CreateDataChannel n (default "" (dataChannel clientConfig))]
             else []) = []) as ->
    by (destruct (truthy (dataChannel clientConfig)); reflexivity).
  simpl. destruct (Nat.eqb pc n); reflexivity.
Qed.

Lemma setup_none (ev : Event) (pc : nat) (log : list Call) :
  creates_connection ev = false ->
  Forall (fun c => may_call ev c = true) log ->
  setup pc log = [].
Proof.
  intros Hev H. induction H as [|c l Hc _ IH]; [reflexivity|].
  unfold setup. simpl. fold (setup pc l). rewrite IH.
  destruct c; try reflexivity; simpl in Hc;
    destruct ev; try discriminate Hc; destruct r; discriminate.
Qed.

Lemma run_setup (evs : list Event) (s : Sys) :
  next_pc (env s) <= next_pc (env (fst (run evs s))) /\
  forall pc,
    setup pc (snd (run evs s)) = [] \/
    (next_pc (env s) <= pc < next_pc (env (fst (run evs s))) /\
     exists configuration,
       setup pc (snd (run evs s)) = receive_only_setup pc configuration).
Proof.
  revert s. induction evs as [|ev evs IH]; intros s; simpl.
  { split; [lia|]. intros pc. left. reflexivity. }
  rewrite andThen_eq. simpl.
  assert (forall pc, setup pc (snd (step ev s) ++ snd (run evs (fst (step ev s)))) =
            setup pc (snd (step ev s)) ++ setup pc (snd (run evs (fst (step ev s)))))
    as Happ by (intros pc; apply List.filter_app).
  destruct (creates_connection ev) eqn:Hev.
  - destruct ev as [| | | |a [clientConfig|]| | | | | | |]; try discriminate Hev.
    rewrite config_step_eq in *.
    destruct (phase_of a s) as [[]|];
      try (destruct (IH s) as [Hle Hpc]; split; [exact Hle|];
           intros pc; rewrite Happ; exact (Hpc pc)).
    rewrite config_eq in *. cbn [fst snd] in *.
    match goal with |- context [run evs ?s1] => destruct (IH s1) as [Hle Hpc] end.
    simpl in Hle. split; [lia|]. intros pc. rewrite Happ, setup_config_calls.
    destruct (Hpc pc) as [-> | [Hb [k ->]]]; [|simpl in Hb].
    + destruct (Nat.eqb_spec pc (next_pc (env s))) as [->|Hne].
      * right. split; [simpl; lia|]. exists (configuration clientConfig).
        rewrite app_nil_r. reflexivity.
      * left. reflexivity.
    + destruct (Nat.eqb_spec pc (next_pc (env s))) as [->|Hne]; [lia|].
      right. split; [simpl; lia|]. exists k. reflexivity.
  - pose proof (step_keeps_next_pc ev Hev s) as Hk.
    destruct (IH (fst (step ev s))) as [Hle Hpc]. rewrite Hk in *.
    split; [exact Hle|]. intros pc. rewrite Happ.
    rewrite (setup_none ev pc _ Hev (step_emits ev s)). exact (Hpc pc).
Qed.

(** In every run, each peer connection the element creates gets exactly
    the audio and the video transceiver, both [recvonly], and one offer
    created with [offerToReceiveAudio] and [offerToReceiveVideo] true; no
    transceiver with another direction is ever added and no local track is
    ever attached. *)
Lemma every_setup_is_receive_only (evs : list Event) (s : Sys) :
  let log := snd (run evs s) in
  Forall (fun c => receive_only c = true) log /\
  forall pc,
    setup pc log = [] \/
    exists configuration, setup pc log = receive_only_setup pc configuration.
Proof.
  simpl. split.
  - revert s. induction evs as [|ev evs IH]; intros s; simpl; [constructor|].
    rewrite andThen_eq. simpl. apply Forall_app. split; [|apply IH].
    eapply Forall_impl; [apply step_emits|]. intros c. apply may_call_receive_only.
  - intros pc. destruct (run_setup evs s) as [_ H].
    destruct (H pc) as [Hn | [_ Hs]]; [left|right]; assumption.
Qed.

Lemma setup_app (pc : nat) (l1 l2 : list Call) :
  setup pc (l1 ++ l2) = setup pc l1 ++ setup pc l2.
Proof. apply List.filter_app. Qed.

(** C7: whenever the configuration of an attempt arrives, a peer connection
    is created for it, and in the whole run, whatever happened before and
    whatever happens afterwards, the set-up calls made on that connection
    are exactly: the constructor with the fetched configuration, the audio
    and the video transceiver, both [recvonly], and one offer created with
    [offerToReceiveAudio] and [offerToReceiveVideo] true.  No call of the
    run adds a transceiver with another direction or attaches a local
    track, and the same holds of every other connection the run creates. *)
Theorem transport_is_receive_only (before after : list Event) (a : nat)
    (clientConfig : ClientConfig) (s : Sys) :
  phase_of a (fst (run before s)) = Some AwaitClientConfig ->
  let pc := next_pc (env (fst (run before s))) in
  let log := snd (run (before ++ [ClientConfigSettled a (Fulfilled clientConfig)] ++ after) s) in
  setup pc log = receive_only_setup pc (configuration clientConfig) /\
  Forall (fun c => receive_only c = true) log /\
  forall pc',
    setup pc' log = [] \/
    exists configuration, setup pc' log = receive_only_setup pc' configuration.
Proof.
  intros Hph. cbn zeta.
  destruct (every_setup_is_receive_only
              (before ++ [ClientConfigSettled a (Fulfilled clientConfig)] ++ after) s)
    as [Hall Hevery].
  split; [|split; assumption].
  rewrite run_app, andThen_eq. cbn [snd app run]. rewrite andThen_eq. cbn [fst snd].
  rewrite config_step_eq, Hph, config_eq. cbn [fst snd].
  rewrite !setup_app, setup_config_calls, Nat.eqb_refl.
  destruct (run_setup before s) as [_ Hbefore].
  destruct (Hbefore (next_pc (env (fst (run before s))))) as [-> | [Hb _]]; [|lia].
  match goal with
  | |- context [run after ?st] => destruct (run_setup after st) as [_ Hafter]
  end.
  destruct (Hafter (next_pc (env (fst (run before s))))) as [-> | [Hb _]].
  - rewrite app_nil_r. reflexivity.
  - simpl in Hb. lia.
Qed.

Lemma transport_is_receive_only_witness :
  setup 0
    (snd (run ([SetEntityid "camera.yard"; Updated ["entityid"]] ++
               [ClientConfigSettled 0 (Fulfilled {| configuration := "stun";
                                                   dataChannel := Some "dataSendChannel" |})] ++
               [CreateOfferSettled 0 (Fulfilled "v=0"); Disconnected])
              (initial "camera.door"))) =
  [NewRTCPeerConnection 0 "stun";
   AddTransceiver 0 Audio RecvOnly; AddTransceiver 0 Video RecvOnly;
   CreateOffer 0 true true].
Proof.
  exact (proj1 (transport_is_receive_only
    [SetEntityid "camera.yard"; Updated ["entityid"]]
    [CreateOfferSettled 0 (Fulfilled "v=0"); Disconnected] 0
    {| configuration := "stun"; dataChannel := Some "dataSendChannel" |}
    (initial "camera.door") eq_refl)).
Defined.

(** ** No retries *)

Definition is_retry (c : Call) : bool :=
  match c with
  | FetchWebRtcClientConfiguration _ | WebRtcOffer _ _ | AddWebRtcCandidate _ _ _ => true
  | _ => false
  end.

(** No activation of [_startWebRtc] is suspended at an [await]. *)
Definition idle (s : Sys) : Prop :=
  forall a f, frame_of a s = Some f -> pending (phase f) = false.

(** Events that neither start an attempt nor hand the element a local
    candidate or a session id. *)
Definition quiet (ev : Event) : bool :=
  match ev with
  | IceCandidate _ _ | OfferEvent (SessionIdEvent _) => false
  | _ => negb (starts_attempt ev)
  end.

(** [fails_in ev a ph]: [ev] is the failure of what activation [a] awaits
    in phase [ph]. *)
Definition fails_in (ev : Event) (a : nat) (ph : Phase) : bool :=
  match ev, ph with
  | ClientConfigSettled a' (RejectedWith _), AwaitClientConfig
  | CreateOfferSettled a' (RejectedWith _), AwaitCreateOffer
  | SetLocalDescriptionSettled a' (RejectedWith _) _, AwaitSetLocalDescription _
  | SetLocalDescriptionSettled a' (Fulfilled _) (Some _), AwaitSetLocalDescription _ =>
      Nat.eqb a a'
  | _, _ => false
  end.

Definition is_failure (ev : Event) : bool :=
  match ev with
  | ClientConfigSettled _ (RejectedWith _)
  | CreateOfferSettled _ (RejectedWith _)
  | SetLocalDescriptionSettled _ (RejectedWith _) _
  | SetLocalDescriptionSettled _ (Fulfilled _) (Some _)
  | SetRemoteDescriptionSettled _ (RejectedWith _) => true
  | _ => false
  end.

(** The calls of a failing step that come after the call that failed:
    when [webRtcOffer] throws, the first call of the step is that call. *)
Definition after_failed_call (ev : Event) (log : list Call) : list Call :=
  match ev with
  | SetLocalDescriptionSettled _ (Fulfilled _) (Some _) => tail log
  | _ => log
  end.

Lemma idle_settle_skips (s : Sys) (a : nat) :
  idle s ->
  match phase_of a s with
  | Some AwaitClientConfig | Some AwaitCreateOffer
  | Some (AwaitSetLocalDescription _) => False
  | _ => True
  end.
Proof.
  intros Hi. unfold phase_of. destruct (frame_of a s) as [f|] eqn:Hf; simpl; [|exact I].
  specialize (Hi a f Hf). destruct (phase f); try discriminate Hi; exact I.
Qed.

Lemma idle_step_settle (s : Sys) (ev : Event) :
  idle s ->
  match ev with
  | ClientConfigSettled _ _ | CreateOfferSettled _ _
  | SetLocalDescriptionSettled _ _ _ => step ev s = (s, [])
  | _ => True
  end.
Proof.
  intros Hi. destruct ev; try exact I; simpl; unfold read;
    pose proof (idle_settle_skips s a Hi) as H;
    destruct (phase_of a s) as [[]|]; try contradiction; destruct r; reflexivity.
Qed.

Lemma step_keeps_frames (ev : Event) :
  match ev with
  | SetEntityid _ | Disconnected | Track _ _ | OfferEvent _
  | SetRemoteDescriptionSettled _ _ | LoadedData => keeps frames (step ev)
  | _ => True
  end.
Proof. destruct ev; try exact I; unfold_handlers; keeps_auto. Qed.

Lemma quiet_step (ev : Event) (s : Sys) :
  idle s -> quiet ev = true ->
  idle (fst (step ev s)) /\ Forall (fun c => is_retry c = false) (snd (step ev s)).
Proof.
  intros Hi Hq.
  pose proof (idle_step_settle s ev Hi) as Hs.
  pose proof (step_keeps_frames ev) as Hk.
  assert (Forall (fun c => is_retry c = false) (snd (step ev s))) as Hcalls.
  { destruct ev; try discriminate Hq; try (rewrite Hs; constructor);
      (eapply Forall_impl; [apply step_emits|]); intros c Hc;
      destruct c; try reflexivity; simpl in Hc, Hq;
      try discriminate Hc;
      try (rewrite Hc in Hq; discriminate Hq).
    destruct event; discriminate. }
  split; [|exact Hcalls].
  destruct ev; try discriminate Hq; try (rewrite Hs; exact Hi);
    try (intros a0 f0; unfold frame_of; rewrite (Hk s); apply Hi).
  - simpl in *. unfold updated.
    destruct (has "entityid" changedProperties); [discriminate Hq|exact Hi].
  - simpl in *. destruct hasUpdated; [discriminate Hq|exact Hi].
Qed.

Lemma quiet_run (evs : list Event) (s : Sys) :
  idle s -> forallb quiet evs = true ->
  idle (fst (run evs s)) /\ Forall (fun c => is_retry c = false) (snd (run evs s)).
Proof.
  revert s. induction evs as [|ev evs IH]; intros s Hi Hq; simpl.
  - split; [exact Hi|constructor].
  - simpl in Hq. apply andb_true_iff in Hq as [Hq Hqs].
    destruct (quiet_step ev s Hi Hq) as [Hi1 Hc1].
    destruct (IH _ Hi1 Hqs) as [Hi2 Hc2].
    rewrite andThen_eq. simpl. split; [exact Hi2|].
    apply Forall_app. split; assumption.
Qed.

Lemma idle_alter (s : Sys) (a : nat) (ph : Phase) (w : Env) :
  pending ph = false ->
  frames w = alter (set_phase ph) a (frames (env s)) ->
  (forall a' f, frame_of a' s = Some f -> pending (phase f) = true -> a' = a) ->
  forall p, idle {| this := p; env := w |}.
Proof.
  intros Hph Hw Hothers p a' f. unfold frame_of. simpl. rewrite Hw.
  destruct (decide (a = a')) as [<-|Hne].
  - rewrite list_lookup_alter_eq. destruct (frames (env s) !! a); [|discriminate].
    intros [= <-]. exact Hph.
  - rewrite list_lookup_alter_ne by exact Hne. intros Hf.
    destruct (pending (phase f)) eqn:Hp; [|reflexivity].
    exfalso. apply Hne. symmetry. exact (Hothers a' f Hf Hp).
Qed.

Lemma fails_in_same (ev : Event) (a : nat) (ph : Phase) :
  fails_in ev a ph = true ->
  match ev with
  | ClientConfigSettled a' _ | CreateOfferSettled a' _
  | SetLocalDescriptionSettled a' _ _ => a = a'
  | _ => False
  end.
Proof.
  destruct ev; simpl; try discriminate; destruct r; try discriminate;
    try (destruct throws; try discriminate);
    destruct ph; try discriminate; intros H; apply Nat.eqb_eq; exact H.
Qed.

Definition activation (ev : Event) : option nat :=
  match ev with
  | ClientConfigSettled a _ | CreateOfferSettled a _
  | SetLocalDescriptionSettled a _ _ => Some a
  | _ => None
  end.

Lemma fails_in_activation (ev : Event) (a : nat) (ph : Phase) :
  fails_in ev a ph = true -> activation ev = Some a.
Proof.
  intros H. apply fails_in_same in H. destruct ev; try contradiction;
    simpl; congruence.
Qed.

Lemma idle_unless_failing (s : Sys) (ev : Event) :
  (forall a f, frame_of a s = Some f -> pending (phase f) = true ->
               fails_in ev a (phase f) = true) ->
  (forall a f, activation ev = Some a -> frame_of a s = Some f ->
               pending (phase f) = false) ->
  idle s.
Proof.
  intros Hothers Hnot a f Hf. destruct (pending (phase f)) eqn:Hp; [|reflexivity].
  rewrite <- Hp. apply (Hnot a f); [|exact Hf].
  eapply fails_in_activation. eauto.
Qed.

Lemma failure_step (s : Sys) (ev : Event) :
  is_failure ev = true ->
  (forall a f, frame_of a s = Some f -> pending (phase f) = true ->
               fails_in ev a (phase f) = true) ->
  idle (fst (step ev s)) /\
  Forall (fun c => is_retry c = false) (after_failed_call ev (snd (step ev s))).
Proof.
  intros Hfail Hothers.
  assert (forall a' f, frame_of a' s = Some f -> pending (phase f) = true ->
            activation ev = Some a') as Hact
    by (intros a' f Hf Hp; eapply fails_in_activation; eauto).
  destruct (activation ev) as [a|] eqn:Ha.
  - (* a promise awaited by activation [a] *)
    assert (forall a' f, frame_of a' s = Some f -> pending (phase f) = true -> a' = a)
      as Hsame by (intros a' f Hf Hp; specialize (Hact a' f Hf Hp); congruence).
    destruct (frame_of a s) as [f|] eqn:Hf.
    2: { assert (idle s) as Hi.
         { apply (idle_unless_failing s ev Hothers). intros a' f' Ha'.
           rewrite Ha in Ha'. injection Ha' as <-. rewrite Hf. discriminate. }
         pose proof (idle_step_settle s ev Hi) as Hs.
         destruct ev; try discriminate Ha; rewrite Hs;
           (split; [exact Hi|]); try destruct r; try destruct throws; constructor. }
    destruct (pending (phase f)) eqn:Hp.
    2: { assert (idle s) as Hi.
         { apply (idle_unless_failing s ev Hothers). intros a' f' Ha'.
           rewrite Ha in Ha'. injection Ha' as <-. rewrite Hf.
           intros [= <-]. exact Hp. }
         pose proof (idle_step_settle s ev Hi) as Hs.
         destruct ev; try discriminate Ha; rewrite Hs;
           (split; [exact Hi|]); try destruct r; try destruct throws; constructor. }
    pose proof (Hothers a f Hf Hp) as Hfi.
    destruct ev; try discriminate Ha; injection Ha as ->;
      simpl; unfold read, phase_of; rewrite Hf; simpl;
      destruct r as [v|message]; try discriminate Hfail;
      try (destruct throws as [message|]; [|discriminate Hfail]);
      destruct (phase f) eqn:Hph; try discriminate Hfi.
    + split; [|constructor].
      apply (idle_alter s a Thrown); [reflexivity|reflexivity|exact Hsame].
    + split; [|constructor].
      apply (idle_alter s a Thrown); [reflexivity|reflexivity|exact Hsame].
    + rewrite signal_throws_eq. simpl. split.
      * apply (idle_alter s a (if defined (_peerConnection (this s))
                               then Returned else Thrown));
          [destruct (_peerConnection (this s)); reflexivity|reflexivity|exact Hsame].
      * destruct (_peerConnection (this s)); repeat constructor.
    + split; [|destruct throws; constructor].
      apply (idle_alter s a Thrown); [reflexivity|reflexivity|exact Hsame].
  - (* a rejected setRemoteDescription *)
    assert (idle s) as Hi.
    { intros a' f Hf. destruct (pending (phase f)) eqn:Hp; [|reflexivity].
      specialize (Hact a' f Hf Hp). discriminate Hact. }
    destruct ev; try discriminate Hfail; try discriminate Ha.
    destruct r as [|message]; [discriminate Hfail|].
    split.
    + intros a' f. unfold frame_of.
      rewrite (step_keeps_frames (SetRemoteDescriptionSettled pc (RejectedWith message)) s).
      apply Hi.
    + unfold after_failed_call.
      eapply Forall_impl;
        [apply (step_emits (SetRemoteDescriptionSettled pc (RejectedWith message)) s)|].
      intros c Hc. destruct c; try reflexivity; discriminate Hc.
Qed.

(** Once a step of an attempt has failed (the configuration fetch,
    [createOffer], [setLocalDescription] or [setRemoteDescription]
    rejected, or [webRtcOffer] threw) and no other activation of
    [_startWebRtc] is in flight, the calls that follow the failed one in
    that step and all calls of later steps contain no configuration fetch,
    no signalling offer and no candidate submission, as long as no new
    attempt is started and the browser and the signalling channel hand the
    element no further local candidate or session id.  The failed
    activation is over: nothing can resume it. *)
Theorem no_retry_after_failure (s : Sys) (ev : Event) (evs : list Event) :
  is_failure ev = true ->
  (forall a f, frame_of a s = Some f -> pending (phase f) = true ->
               fails_in ev a (phase f) = true) ->
  forallb quiet evs = true ->
  Forall (fun c => is_retry c = false) (after_failed_call ev (snd (step ev s))) /\
  Forall (fun c => is_retry c = false) (snd (run evs (fst (step ev s)))) /\
  idle (fst (run evs (fst (step ev s)))).
Proof.
  intros Hfail Hothers Hq.
  destruct (failure_step s ev Hfail Hothers) as [Hi Hc].
  destruct (quiet_run evs _ Hi Hq) as [Hi' Hc'].
  repeat split; assumption.
Qed.

Definition about_to_signal : Sys :=
  fst (run [Updated ["entityid"];
            ClientConfigSettled 0 (Fulfilled {| configuration := "stun"; dataChannel := None |});
            CreateOfferSettled 0 (Fulfilled "v=0")]
           (initial "camera.door")).

Lemma no_retry_after_failure_witness :
  Forall (fun c => is_retry c = false)
    (snd (run [OfferEvent (CandidateEvent "candidate:1"); LoadedData; Disconnected]
            (fst (step (SetLocalDescriptionSettled 0 (Fulfilled ()) (Some "no route"))
                       about_to_signal)))).
Proof.
  refine (proj1 (proj2 (no_retry_after_failure about_to_signal
    (SetLocalDescriptionSettled 0 (Fulfilled ()) (Some "no route"))
    [OfferEvent (CandidateEvent "candidate:1"); LoadedData; Disconnected]
    eq_refl _ eq_refl))).
  intros a f. destruct a as [|a]; vm_compute.
  - intros [= <-] _. reflexivity.
  - destruct a; discriminate.
Defined.

(** ** Order of the steps of an attempt *)

Lemma append_nil_r (x : string) : x +:+ "" = x.
Proof.
  induction x as [|ch x IH]; [reflexivity|].
  change (String ch (x +:+ "") = String ch x). rewrite IH. reflexivity.
Qed.








Lemma starts_attempt_step (start : Event) :
  starts_attempt start = true -> step start = _startWebRtc.
Proof.
  destruct start; try discriminate; simpl; intros H.
  - unfold updated. rewrite H. reflexivity.
  - rewrite H. reflexivity.
Qed.

Lemma run_cons (ev : Event) (evs : list Event) (s : Sys) :
  run (ev :: evs) s =
  (fst (run evs (fst (step ev s))), snd (step ev s) ++ snd (run evs (fst (step ev s)))).
Proof. cbn [run]. apply andThen_eq. Qed.

Lemma run_app_eq (evs1 evs2 : list Event) (s : Sys) :
  run (evs1 ++ evs2) s =
  (fst (run evs2 (fst (run evs1 s))), snd (run evs1 s) ++ snd (run evs2 (fst (run evs1 s)))).
Proof. rewrite run_app. apply andThen_eq. Qed.







(** * Further properties of the element *)

(** ** One configuration fetch per attempt *)

Definition is_fetch (c : Call) : bool :=
  match c with
  | FetchWebRtcClientConfiguration _ => true
  | _ => false
  end.

Lemma release_calls_no_fetch (s : Sys) : List.filter is_fetch (release_calls s) = [].
Proof.
  unfold release_calls. rewrite !List.filter_app.
  assert (forall l, List.filter is_fetch (TrackStop <$> l) = []) as Htracks
    by (induction l as [|t l IH]; [reflexivity|exact IH]).
  destruct (_remoteStream (this s)), (_videoEl (this s)),
    (_peerConnection (this s)), (_unsub (this s));
    rewrite ?Htracks; reflexivity.
Qed.

Lemma step_fetches (ev : Event) (s : Sys) :
  length (List.filter is_fetch (snd (step ev s))) =
  if starts_attempt ev then 1 else 0.
Proof.
  destruct (starts_attempt ev) eqn:Hstart.
  - rewrite (starts_attempt_step ev Hstart), startWebRtc_eq. cbn [snd].
    rewrite List.filter_app, release_calls_no_fetch. reflexivity.
  - pose proof (step_emits ev s) as H.
    induction H as [|c l Hc _ IH]; [reflexivity|].
    destruct c; try exact IH. simpl in Hc. congruence.
Qed.

(** X1: the configuration is fetched exactly once per trigger of an attempt
    ([updated] with [entityid] among the changed properties, or
    [connectedCallback] after the first update) and never otherwise:
    failures, signalling events and media events cause no further fetch. *)
Theorem one_fetch_per_attempt (evs : list Event) (s : Sys) :
  length (List.filter is_fetch (snd (run evs s))) =
  length (List.filter starts_attempt evs).
Proof.
  revert s. induction evs as [|ev evs IH]; intros s; [reflexivity|].
  rewrite run_cons. cbn [snd]. rewrite List.filter_app, length_app, step_fetches, IH.
  cbn [List.filter]. destruct (starts_attempt ev); reflexivity.
Qed.

(** ** Releasing twice *)

(** X2: [_cleanUp] is idempotent: run again on its own result it changes
    nothing and stops no track, closes no connection and unsubscribes
    nothing a second time; only the video element is reset again. *)
Theorem cleanUp_twice (s : Sys) :
  _cleanUp (fst (_cleanUp s)) =
  (fst (_cleanUp s),
   if _videoEl (this s) then [VideoRemoveAttribute "src"; VideoLoad] else []).
Proof.
  rewrite !cleanUp_eq. cbn [fst]. unfold release_calls.
  cbn [this env released _remoteStream _videoEl _peerConnection _unsub].
  destruct (_videoEl (this s)); reflexivity.
Qed.

(** ** When the error banner can appear *)

Section KeepsField.

Context {A : Type} (q : Player -> A).

Definition keeps_field (a : Action) : Prop :=
  forall s, q (this (fst (a s))) = q (this s).

Lemma keeps_field_skip : keeps_field skip.
Proof. intros s. reflexivity. Qed.

Lemma keeps_field_call (c : Call) : keeps_field (call c).
Proof. intros s. reflexivity. Qed.

Lemma keeps_field_update (f : Env -> Env) : keeps_field (update f).
Proof. intros s. reflexivity. Qed.

Lemma keeps_field_assign (f : Player -> Player) :
  (forall p, q (f p) = q p) -> keeps_field (assign f).
Proof. intros H s. apply H. Qed.

Lemma keeps_field_andThen (a b : Action) :
  keeps_field a -> keeps_field b -> keeps_field (a >> b).
Proof. intros Ha Hb s. rewrite andThen_eq. simpl. rewrite Hb. apply Ha. Qed.

Lemma keeps_field_read {B : Type} (g : Sys -> B) (k : B -> Action) :
  (forall x, keeps_field (k x)) -> keeps_field (read g k).
Proof. intros H s. apply H. Qed.

Lemma keeps_field_forEach {B : Type} (l : list B) (k : B -> Action) :
  (forall x, keeps_field (k x)) -> keeps_field (forEach l k).
Proof.
  intros H. induction l as [|x l IH]; simpl.
  - apply keeps_field_skip.
  - apply keeps_field_andThen; auto.
Qed.

End KeepsField.

Ltac keeps_field_step :=
  lazymatch goal with
  | |- keeps_field _ skip => apply keeps_field_skip
  | |- keeps_field _ (call _) => apply keeps_field_call
  | |- keeps_field _ (update _) => apply keeps_field_update
  | |- keeps_field _ (assign _) => apply keeps_field_assign; intros ?; reflexivity
  | |- keeps_field _ (andThen _ _) => apply keeps_field_andThen
  | |- keeps_field _ (read _ _) => apply keeps_field_read; intros ?
  | |- keeps_field _ (forEach _ _) => apply keeps_field_forEach; intros ?
  | |- keeps_field _ (match ?x with _ => _ end) => destruct x
  end.

Ltac keeps_field_auto := repeat keeps_field_step.

(** The two failures the element catches. *)
Definition caught_failure (ev : Event) : bool :=
  match ev with
  | SetLocalDescriptionSettled _ (Fulfilled _) (Some _)
  | SetRemoteDescriptionSettled _ (RejectedWith _) => true
  | _ => false
  end.

Lemma step_error (ev : Event) (s : Sys) :
  caught_failure ev = false ->
  _error (this (fst (step ev s))) = _error (this s) \/
  _error (this (fst (step ev s))) = None.
Proof.
  intros Hev. destruct (starts_attempt ev) eqn:Hstart.
  - right. rewrite (starts_attempt_step ev Hstart), startWebRtc_eq. reflexivity.
  - left. revert s. change (keeps_field _error (step ev)).
    destruct ev; try discriminate Hev; simpl in Hstart; try subst hasUpdated;
      unfold step, updated, connectedCallback, disconnectedCallback;
      rewrite ?Hstart; cbn [negb]; unfold_handlers;
      keeps_field_auto; simpl in Hev; discriminate Hev.
Qed.

(** X3: the alert is rendered only after [webRtcOffer] has thrown or
    [setRemoteDescription] has rejected: as long as neither happens, an
    element that shows the video keeps showing it.  In particular a rejected
    configuration fetch, a rejected [createOffer] or [setLocalDescription],
    and any event of the signalling channel leave the video in place. *)
Theorem alert_only_after_caught_failure (evs : list Event) (s : Sys) :
  forallb (fun ev => negb (caught_failure ev)) evs = true ->
  render (this s) = VideoElement ->
  render (this (fst (run evs s))) = VideoElement.
Proof.
  revert s. induction evs as [|ev evs IH]; intros s Hevs Hr; [exact Hr|].
  simpl in Hevs. apply andb_true_iff in Hevs as [Hev Hevs].
  apply negb_true_iff in Hev.
  rewrite run_cons. cbn [fst]. apply IH; [exact Hevs|].
  unfold render in *. destruct (step_error ev s Hev) as [-> | ->];
    [exact Hr|reflexivity].
Qed.

Lemma alert_only_after_caught_failure_witness :
  render (this (fst (run [Updated ["entityid"];
                          ClientConfigSettled 0 (RejectedWith "unsupported");
                          OfferEvent (OtherEvent "error")]
                         (initial "camera.door")))) = VideoElement.
Proof.
  exact (alert_only_after_caught_failure
           [Updated ["entityid"]; ClientConfigSettled 0 (RejectedWith "unsupported");
            OfferEvent (OtherEvent "error")]
           (initial "camera.door") eq_refl eq_refl).
Defined.

(** ** One open connection when attempts do not overlap *)

Definition awaits_config (f : Frame) : bool :=
  match phase f with
  | AwaitClientConfig => true
  | _ => false
  end.

(** The number of activations waiting for their configuration. *)
Definition n_awaiting (l : list Frame) : nat := length (List.filter awaits_config l).

(** No attempt is started while another one still waits for its
    configuration. *)
Fixpoint non_overlapping (evs : list Event) (s : Sys) : bool :=
  match evs with
  | [] => true
  | ev :: evs' =>
      (negb (starts_attempt ev) || Nat.eqb (n_awaiting (frames (env s))) 0) &&
      non_overlapping evs' (fst (step ev s))
  end.

Definition inert (c : Call) : bool :=
  match c with
  | NewRTCPeerConnection _ _ | PcClose _ => false
  | _ => true
  end.

Lemma live_from_app (open : list nat) (l1 l2 : list Call) :
  live_from open (l1 ++ l2) = live_from (live_from open l1) l2.
Proof.
  revert open. induction l1 as [|c l1 IH]; intros open; [reflexivity|].
  destruct c; simpl; apply IH.
Qed.

Lemma live_from_inert (open : list nat) (l : list Call) :
  Forall (fun c => inert c = true) l -> live_from open l = open.
Proof.
  intros H. induction H as [|c l Hc _ IH]; [reflexivity|].
  destruct c; try discriminate Hc; exact IH.
Qed.

Lemma n_awaiting_alter_same (g : Frame -> Frame) (a : nat) (l : list Frame) :
  (forall f, awaits_config (g f) = awaits_config f) ->
  n_awaiting (alter g a l) = n_awaiting l.
Proof.
  intros Hg. unfold n_awaiting. revert a.
  induction l as [|f l IH]; intros [|a]; try reflexivity.
  - change (alter g 0 (f :: l)) with (g f :: l). cbn [List.filter].
    rewrite Hg. destruct (awaits_config f); reflexivity.
  - change (alter g (S a) (f :: l)) with (f :: alter g a l). cbn [List.filter].
    destruct (awaits_config f); cbn [length]; rewrite IH; reflexivity.
Qed.

Lemma n_awaiting_alter_leave (g : Frame -> Frame) (a : nat) (l : list Frame) (f : Frame) :
  l !! a = Some f ->
  awaits_config f = true ->
  awaits_config (g f) = false ->
  S (n_awaiting (alter g a l)) = n_awaiting l.
Proof.
  unfold n_awaiting. revert a.
  induction l as [|f' l IH]; intros [|a] Hf Hw Hg; try discriminate.
  - injection Hf as ->. change (alter g 0 (f :: l)) with (g f :: l).
    cbn [List.filter]. rewrite Hw, Hg. reflexivity.
  - change (alter g (S a) (f' :: l)) with (f' :: alter g a l). cbn [List.filter].
    change ((f' :: l) !! S a) with (l !! a) in Hf.
    destruct (awaits_config f'); cbn [length]; rewrite <- (IH a Hf Hw Hg); reflexivity.
Qed.

Lemma n_awaiting_new (l : list Frame) : n_awaiting (l ++ [new_frame]) = S (n_awaiting l).
Proof.
  unfold n_awaiting. rewrite List.filter_app, length_app. simpl. lia.
Qed.

Lemma live_from_close (pc : nat) (l : list Call) :
  live_from [pc] (PcClose pc :: l) = live_from [] l.
Proof.
  cbn [live_from]. rewrite filter_cons_False by (intros H; apply H; reflexivity).
  reflexivity.
Qed.

(** The connections opened by the log so far are at most the one
    [_peerConnection] holds, and while an activation waits for its
    configuration the field is empty. *)
Definition one_connection (s : Sys) (open : list nat) : Prop :=
  (n_awaiting (frames (env s)) = 0 \/
   (n_awaiting (frames (env s)) = 1 /\ _peerConnection (this s) = None)) /\
  (open = [] \/ exists pc, open = [pc] /\ _peerConnection (this s) = Some pc).

Lemma one_connection_released (s : Sys) (open : list nat) (p : Player) (w : Env) (n : nat) :
  one_connection s open ->
  _peerConnection p = None ->
  n_awaiting (frames w) = n ->
  n <= 1 ->
  one_connection {| this := p; env := w |} (live_from open (release_calls s)).
Proof.
  intros [_ Hopen] Hp Hw Hn. split.
  - simpl. rewrite Hp, Hw. destruct n as [|[|n]]; [left; reflexivity|right; split; reflexivity|lia].
  - left. unfold release_calls. rewrite !live_from_app.
    assert (forall l o, live_from o (TrackStop <$> l) = o) as Htracks
      by (induction l as [|t l IH]; intros o; [reflexivity|apply IH]).
    assert (forall o, live_from o (if _videoEl (this s)
                                   then [VideoRemoveAttribute "src"; VideoLoad]
                                   else []) = o) as Hvideo
      by (intros o; destruct (_videoEl (this s)); reflexivity).
    assert (forall o, live_from o match _unsub (this s) with
                                  | Some sub => [Unsubscribe sub]
                                  | None => []
                                  end = o) as Hunsub
      by (intros o; destruct (_unsub (this s)); reflexivity).
    assert (live_from open match _remoteStream (this s) with
                           | Some ms => TrackStop <$> getTracks ms s
                           | None => []
                           end = open) as ->
      by (destruct (_remoteStream (this s)); [apply Htracks|reflexivity]).
    rewrite Hvideo, Hunsub.
    destruct Hopen as [-> | (pc & -> & Hpc)].
    + destruct (_peerConnection (this s)); reflexivity.
    + rewrite Hpc. apply live_from_close.
Qed.

Lemma one_connection_closed (s : Sys) (open : list nat) (p : Player) (w : Env) :
  one_connection s open ->
  _peerConnection p = _peerConnection (this s) ->
  n_awaiting (frames w) = n_awaiting (frames (env s)) ->
  one_connection {| this := p; env := w |}
    (live_from open match _peerConnection (this s) with
                    | Some pc => [PcClose pc]
                    | None => []
                    end).
Proof.
  intros [Hw Hopen] Hp Hn. split.
  - simpl. rewrite Hp, Hn. exact Hw.
  - left. destruct Hopen as [-> | (pc & -> & Hpc)].
    + destruct (_peerConnection (this s)); reflexivity.
    + rewrite Hpc. apply live_from_close.
Qed.

Lemma one_connection_kept (s : Sys) (open : list nat) (s' : Sys) (log : list Call) :
  one_connection s open ->
  _peerConnection (this s') = _peerConnection (this s) ->
  n_awaiting (frames (env s')) = n_awaiting (frames (env s)) ->
  Forall (fun c => inert c = true) log ->
  one_connection s' (live_from open log).
Proof.
  intros [Hw Hopen] Hp Hn Hlog. rewrite (live_from_inert _ _ Hlog).
  split; rewrite Hp, ?Hn; assumption.
Qed.

Lemma n_awaiting_alter_at (g : Frame -> Frame) (a : nat) (l : list Frame) (f : Frame) :
  l !! a = Some f ->
  awaits_config (g f) = awaits_config f ->
  n_awaiting (alter g a l) = n_awaiting l.
Proof.
  unfold n_awaiting. revert a.
  induction l as [|f' l IH]; intros [|a] Hf Hg; try discriminate.
  - injection Hf as ->. change (alter g 0 (f :: l)) with (g f :: l).
    cbn [List.filter]. rewrite Hg. destruct (awaits_config f); reflexivity.
  - change (alter g (S a) (f' :: l)) with (f' :: alter g a l). cbn [List.filter].
    change ((f' :: l) !! S a) with (l !! a) in Hf.
    destruct (awaits_config f'); cbn [length]; rewrite (IH a Hf Hg); reflexivity.
Qed.

Lemma phase_of_frame (a : nat) (s : Sys) (ph : Phase) :
  phase_of a s = Some ph ->
  exists f, frames (env s) !! a = Some f /\ phase f = ph.
Proof.
  unfold phase_of, frame_of. destruct (frames (env s) !! a) as [f|]; [|discriminate].
  intros [= <-]. exists f. split; reflexivity.
Qed.

Lemma leave_phase (a : nat) (s : Sys) (f : Frame) (ph : Phase) :
  frames (env s) !! a = Some f ->
  awaits_config f = false ->
  awaits_config (set_phase ph f) = false ->
  n_awaiting (alter (set_phase ph) a (frames (env s))) = n_awaiting (frames (env s)).
Proof.
  intros Hf Hb Ha. apply (n_awaiting_alter_at _ _ _ f Hf). congruence.
Qed.

Definition uneventful (ev : Event) : bool :=
  match ev with
  | SetEntityid _ | IceCandidate _ _ | Track _ _ | OfferEvent _ | LoadedData => true
  | _ => false
  end.

Lemma uneventful_step (ev : Event) (s : Sys) :
  uneventful ev = true ->
  _peerConnection (this (fst (step ev s))) = _peerConnection (this s) /\
  n_awaiting (frames (env (fst (step ev s)))) = n_awaiting (frames (env s)) /\
  Forall (fun c => inert c = true) (snd (step ev s)).
Proof.
  intros Hev. split; [|split].
  - revert s. change (keeps_field _peerConnection (step ev)).
    destruct ev; try discriminate Hev; unfold_handlers; keeps_field_auto.
  - revert s. change (keeps (fun w => n_awaiting (frames w)) (step ev)).
    destruct ev; try discriminate Hev; unfold_handlers;
      repeat first
        [ keeps_step
        | apply keeps_update; intros ?; cbn [frames set_frames];
          apply n_awaiting_alter_same; intros ?; reflexivity ].
  - eapply Forall_impl; [apply step_emits|]. intros c Hc.
    destruct c; try reflexivity; destruct ev; discriminate.
Qed.

Lemma step_one_connection (ev : Event) (s : Sys) (open : list nat) :
  one_connection s open ->
  (starts_attempt ev = true -> n_awaiting (frames (env s)) = 0) ->
  one_connection (fst (step ev s)) (live_from open (snd (step ev s))).
Proof.
  intros Hinv Hguard.
  assert (n_awaiting (frames (env s)) <= 1) as Hle
    by (destruct Hinv as [[H|[H _]] _]; lia).
  assert (one_connection s (live_from open [])) as Hskip by exact Hinv.
  destruct (starts_attempt ev) eqn:Hstart.
  { rewrite (starts_attempt_step ev Hstart), startWebRtc_eq. cbn [fst snd].
    rewrite live_from_app. cbn [live_from].
    apply (one_connection_released s open _ _ 1 Hinv); [reflexivity| |lia].
    cbn [frames set_frames]. rewrite n_awaiting_new, (Hguard eq_refl). reflexivity. }
  destruct (uneventful ev) eqn:Hun.
  { destruct (uneventful_step ev s Hun) as (Hp & Hn & Hlog).
    apply (one_connection_kept s); assumption. }
  destruct ev; try discriminate Hun; simpl in Hstart.
  - (* updated, entityid unchanged *)
    simpl. unfold updated. rewrite Hstart. exact Hskip.
  - (* connectedCallback before the first update *)
    subst hasUpdated. exact Hskip.
  - (* disconnectedCallback *)
    simpl. unfold disconnectedCallback. rewrite cleanUp_eq. cbn [fst snd].
    eapply (one_connection_released s open); [exact Hinv|reflexivity|reflexivity|exact Hle].
  - (* configuration fetch settled *)
    simpl. unfold read.
    destruct (phase_of a s) as [ph|] eqn:Hph; [|destruct r; exact Hskip].
    destruct (phase_of_frame a s ph Hph) as (f & Hf & Hfp).
    destruct ph; try (destruct r; exact Hskip).
    assert (awaits_config f = true) as Hw by (unfold awaits_config; rewrite Hfp; reflexivity).
    assert (1 <= n_awaiting (frames (env s))) as Hge.
    { rewrite <- (n_awaiting_alter_leave (set_phase Thrown) a _ f Hf Hw eq_refl). lia. }
    destruct Hinv as [[H0|[H1 Hnone]] Hopen]; [lia|].
    assert (open = []) as -> by (destruct Hopen as [-> | (pc & _ & Hpc)]; congruence).
    destruct r as [clientConfig|message].
    + rewrite config_eq. cbn [fst snd]. split.
      * left. cbn [env frames set_frames set_next_pc].
        assert (forall g, (forall x, awaits_config (g x) = awaits_config x) ->
                  alter g a (frames (env s)) !! a = Some (g f)) as Hlook
          by (intros g _; rewrite list_lookup_alter_eq, Hf; reflexivity).
        pose proof (n_awaiting_alter_leave (set_phase AwaitCreateOffer) a
          (alter (set_icecandidate_listener true) a
             (alter (set_candidates "") a (frames (env s))))
          (set_icecandidate_listener true (set_candidates "" f))) as Hleave.
        rewrite !list_lookup_alter_eq, Hf in Hleave.
        specialize (Hleave eq_refl Hw eq_refl).
        rewrite (n_awaiting_alter_same (set_icecandidate_listener true)),
          (n_awaiting_alter_same (set_candidates "")) in Hleave
          by (intros ?; reflexivity).
        lia.
      * right. exists (next_pc (env s)). split; [|reflexivity].
        unfold config_calls. destruct (truthy (dataChannel clientConfig)); reflexivity.
    + unfold on_frame, update. cbn [fst snd live_from]. split.
      * left. cbn [env frames set_frames].
        pose proof (n_awaiting_alter_leave (set_phase Thrown) a _ f Hf Hw eq_refl). lia.
      * left. reflexivity.
  - (* createOffer settled *)
    simpl. unfold read.
    destruct (phase_of a s) as [ph|] eqn:Hph; [|destruct r; exact Hskip].
    destruct (phase_of_frame a s ph Hph) as (f & Hf & Hfp).
    destruct ph; try (destruct r; exact Hskip).
    assert (awaits_config f = false) as Hw by (unfold awaits_config; rewrite Hfp; reflexivity).
    destruct r as [sdp|message].
    + rewrite offer_eq. destruct (_peerConnection (this s)) eqn:Hpc;
        (apply (one_connection_kept s);
         [exact Hinv | reflexivity | (apply (leave_phase a s f _ Hf Hw); reflexivity)
         | repeat constructor]).
    + unfold on_frame, update. cbn [fst snd].
      apply (one_connection_kept s);
        [exact Hinv | reflexivity | (apply (leave_phase a s f _ Hf Hw); reflexivity)
        | constructor].
  - (* setLocalDescription settled *)
    simpl. unfold read.
    destruct (phase_of a s) as [ph|] eqn:Hph; [|destruct r; exact Hskip].
    destruct (phase_of_frame a s ph Hph) as (f & Hf & Hfp).
    destruct ph; try (destruct r; exact Hskip).
    assert (awaits_config f = false) as Hw by (unfold awaits_config; rewrite Hfp; reflexivity).
    destruct r as [u|message].
    + destruct throws as [message|].
      * rewrite signal_throws_eq. cbn [fst snd live_from].
        apply (one_connection_closed s open _ _ Hinv); [reflexivity|].
        cbn [frames set_frames]. apply (leave_phase a s f _ Hf Hw).
        destruct (_peerConnection (this s)); reflexivity.
      * rewrite signal_returns_eq. cbn zeta.
        destruct (_peerConnection (this s)) eqn:Hpc; cbn [fst snd];
          (apply (one_connection_kept s);
           [exact Hinv | reflexivity | | repeat constructor]);
          cbn [env frames set_frames].
        -- rewrite (n_awaiting_alter_at (set_phase Returned) a _
                      (set_track_listener (Some (length (streams (env s)))) f));
             [apply n_awaiting_alter_same; intros ?; reflexivity
             |rewrite list_lookup_alter_eq, Hf; reflexivity
             |unfold awaits_config in *; cbn [phase set_phase set_track_listener];
              rewrite Hfp; reflexivity].
        -- (apply (leave_phase a s f _ Hf Hw); reflexivity).
    + unfold on_frame, update. cbn [fst snd].
      apply (one_connection_kept s);
        [exact Hinv | reflexivity | (apply (leave_phase a s f _ Hf Hw); reflexivity)
        | constructor].
  - (* setRemoteDescription settled *)
    simpl. unfold read.
    destruct (existsb (Nat.eqb pc) (remote_pending (env s))); [|exact Hskip].
    destruct r as [u|message].
    + rewrite andThen_eq. cbn [fst snd update skip app live_from].
      apply (one_connection_kept s open _ []); [exact Hinv|reflexivity|reflexivity|constructor].
    + rewrite andThen_eq. unfold _handleAnswer_catch. rewrite andThen_eq.
      unfold read, field, update, assign. cbn [fst snd this env app].
      change (_peerConnection (set_error _ (this s))) with (_peerConnection (this s)).
      assert (forall s' l, snd (match _peerConnection (this s) with
                                | Some pc' => call (PcClose pc')
                                | None => skip
                                end s') = l ->
                l = match _peerConnection (this s) with
                    | Some pc' => [PcClose pc']
                    | None => []
                    end) as Hcalls
        by (intros s' l <-; destruct (_peerConnection (this s)); reflexivity).
      erewrite (Hcalls _ _ eq_refl).
      destruct (_peerConnection (this s)) eqn:Hpc; cbn [fst call skip];
        pose proof (one_connection_closed s open
          (set_error (Some ("Failed to connect WebRTC stream: " +:+ message)) (this s))
          (set_remote_pending (remove_first pc (remote_pending (env s))) (env s))
          Hinv eq_refl eq_refl) as H; rewrite Hpc in H; exact H.
Qed.

Lemma run_one_connection (evs : list Event) (s : Sys) (open : list nat) :
  one_connection s open ->
  non_overlapping evs s = true ->
  one_connection (fst (run evs s)) (live_from open (snd (run evs s))).
Proof.
  revert s open. induction evs as [|ev evs IH]; intros s open Hinv Hno; [exact Hinv|].
  cbn [non_overlapping] in Hno. apply andb_true_iff in Hno as [Hguard Hno].
  rewrite run_cons. cbn [fst snd]. rewrite live_from_app.
  apply IH; [|exact Hno]. apply step_one_connection; [exact Hinv|].
  intros Hstart. rewrite Hstart in Hguard. apply Nat.eqb_eq. exact Hguard.
Qed.

(** X4: as long as no attempt is started while another one still waits for
    its configuration, the connections a run has opened and not closed are
    at most one, and that one is the connection [_peerConnection] holds. *)
Theorem one_live_connection_without_overlap (evs : list Event) (s : Sys) :
  n_awaiting (frames (env s)) = 0 ->
  non_overlapping evs s = true ->
  live (snd (run evs s)) = [] \/
  exists pc, live (snd (run evs s)) = [pc] /\
             _peerConnection (this (fst (run evs s))) = Some pc.
Proof.
  intros Hn Hno.
  assert (one_connection s []) as Hinv by (split; [left; exact Hn|left; reflexivity]).
  exact (proj2 (run_one_connection evs s [] Hinv Hno)).
Qed.

Definition two_attempts_in_turn : list Event :=
  [Updated ["entityid"];
   ClientConfigSettled 0 (Fulfilled {| configuration := "stun"; dataChannel := None |});
   SetEntityid "camera.yard"; Updated ["entityid"];
   ClientConfigSettled 1 (Fulfilled {| configuration := "stun"; dataChannel := None |})].

Lemma one_live_connection_without_overlap_witness :
  live (snd (run two_attempts_in_turn (initial "camera.door"))) = [] \/
  exists pc, live (snd (run two_attempts_in_turn (initial "camera.door"))) = [pc] /\
             _peerConnection (this (fst (run two_attempts_in_turn (initial "camera.door"))))
             = Some pc.
Proof.
  exact (one_live_connection_without_overlap two_attempts_in_turn
           (initial "camera.door") eq_refl eq_refl).
Defined.

Example two_attempts_in_turn_live :
  live (snd (run two_attempts_in_turn (initial "camera.door"))) = [1].
Proof. reflexivity. Qed.

(** ** Every local candidate is handed over once *)

(** The candidate strings of the events that carry one. *)
Fixpoint gathered (l : list (option string)) : list string :=
  match l with
  | [] => []
  | c :: l' => if truthy c then default "" c :: gathered l' else gathered l'
  end.

Lemma ice_step (a : nat) (c : option string) (s : Sys) (f : Frame) :
  frame_of a s = Some f ->
  icecandidate_listener f = true ->
  step (IceCandidate a c) s = onicecandidate a c s.
Proof. intros Hf Hl. simpl. unfold read. rewrite Hf. simpl. rewrite Hl. reflexivity. Qed.

(** With the subscription in place and no session id yet, candidates are
    buffered in arrival order. *)
Lemma ice_run_buffered (a : nat) (l : list (option string)) (s : Sys) (f : Frame) :
  frame_of a s = Some f ->
  icecandidate_listener f = true ->
  truthy (_sessionId (this s)) = false ->
  defined (_unsub (this s)) = true ->
  run (IceCandidate a <$> l) s =
  ({| this := set_candidatesList (_candidatesList (this s) ++ gathered l) (this s);
      env := env s |}, []).
Proof.
  revert s. induction l as [|c l IH]; intros s Hf Hl Hs Hu.
  - simpl. unfold skip. rewrite app_nil_r. destruct s as [[] w]. reflexivity.
  - rewrite fmap_cons, run_cons, (ice_step a c s f Hf Hl). cbn [gathered].
    unfold onicecandidate. destruct (truthy c) eqn:Hc; cbn [negb].
    + unfold read, field. rewrite Hs, Hu. unfold assign. cbn [fst snd].
      rewrite IH by assumption. cbn [this env _candidatesList set_candidatesList app].
      rewrite <- app_assoc. reflexivity.
    + unfold skip. cbn [fst snd]. rewrite IH by assumption. reflexivity.
Qed.

(** Once a session id is known, candidates are submitted as they come. *)
Lemma ice_run_direct (a : nat) (l : list (option string)) (s : Sys) (f : Frame) (sid : string) :
  frame_of a s = Some f ->
  icecandidate_listener f = true ->
  _sessionId (this s) = Some sid ->
  sid <> "" ->
  run (IceCandidate a <$> l) s =
  (s, AddWebRtcCandidate (entityid (this s)) sid <$> gathered l).
Proof.
  intros Hf Hl Hs Hne.
  assert (truthy (_sessionId (this s)) = true) as Ht
    by (apply truthy_Some; eauto).
  induction l as [|c l IH]; [reflexivity|].
  rewrite fmap_cons, run_cons, (ice_step a c s f Hf Hl). cbn [gathered].
  unfold onicecandidate. destruct (truthy c) eqn:Hc; cbn [negb].
  - unfold read, field. rewrite Ht, Hs. unfold call. cbn [fst snd].
    rewrite IH. reflexivity.
  - unfold skip. cbn [fst snd]. rewrite IH. reflexivity.
Qed.

(** X5: after the signalling call has returned, the candidates gathered before
    the [session_id] event and those gathered after it are all submitted
    with the session id, each exactly once and in the order gathered, and
    the buffer ends empty. *)
Theorem candidates_submitted_once_in_order (a : nat) (before after : list (option string))
    (sid : string) (s : Sys) (f : Frame) :
  frame_of a s = Some f ->
  icecandidate_listener f = true ->
  truthy (_sessionId (this s)) = false ->
  defined (_unsub (this s)) = true ->
  sid <> "" ->
  let r := run ((IceCandidate a <$> before) ++
                [OfferEvent (SessionIdEvent sid)] ++
                (IceCandidate a <$> after)) s in
  snd r = (AddWebRtcCandidate (entityid (this s)) sid <$>
             (_candidatesList (this s) ++ gathered before ++ gathered after)) /\
  _candidatesList (this (fst r)) = [].
Proof.
  intros Hf Hl Hs Hu Hne. cbn zeta.
  rewrite run_app_eq, (ice_run_buffered a before s f Hf Hl Hs Hu). cbn [fst snd app].
  rewrite run_cons. cbn [step]. rewrite handle_session_id_eq. cbn [fst snd].
  erewrite (ice_run_direct a after _ f sid); [|exact Hf|exact Hl|reflexivity|exact Hne].
  cbn [fst snd this entityid set_candidatesList set_sessionId _candidatesList].
  split; [|reflexivity].
  rewrite <- fmap_app, <- app_assoc. reflexivity.
Qed.

Definition subscribed_state : Sys :=
  fst (run [Updated ["entityid"];
            ClientConfigSettled 0 (Fulfilled {| configuration := "stun"; dataChannel := None |});
            CreateOfferSettled 0 (Fulfilled "v=0");
            SetLocalDescriptionSettled 0 (Fulfilled ()) None]
           (initial "camera.door")).

Lemma candidates_submitted_once_in_order_witness :
  snd (run ((IceCandidate 0 <$> [Some "candidate:1"; None]) ++
            [OfferEvent (SessionIdEvent "s1")] ++
            (IceCandidate 0 <$> [Some "candidate:2"])) subscribed_state) =
  [AddWebRtcCandidate "camera.door" "s1" "candidate:1";
   AddWebRtcCandidate "camera.door" "s1" "candidate:2"].
Proof.
  refine (proj1 (candidates_submitted_once_in_order 0 [Some "candidate:1"; None]
    [Some "candidate:2"] "s1" subscribed_state _ eq_refl eq_refl eq_refl eq_refl _)).
  discriminate.
Defined.

(** X6: an empty session id is not taken as known: the buffer is flushed under
    the empty id, but candidates gathered afterwards are buffered again
    instead of being submitted. *)
Theorem empty_session_id_keeps_buffering (a : nat) (before after : list (option string))
    (s : Sys) (f : Frame) :
  frame_of a s = Some f ->
  icecandidate_listener f = true ->
  truthy (_sessionId (this s)) = false ->
  defined (_unsub (this s)) = true ->
  let r := run ((IceCandidate a <$> before) ++
                [OfferEvent (SessionIdEvent "")] ++
                (IceCandidate a <$> after)) s in
  snd r = (AddWebRtcCandidate (entityid (this s)) "" <$>
             (_candidatesList (this s) ++ gathered before)) /\
  _candidatesList (this (fst r)) = gathered after.
Proof.
  intros Hf Hl Hs Hu. cbn zeta.
  rewrite run_app_eq, (ice_run_buffered a before s f Hf Hl Hs Hu). cbn [fst snd app].
  rewrite run_cons. cbn [step]. rewrite handle_session_id_eq. cbn [fst snd].
  erewrite (ice_run_buffered a after _ f); [|exact Hf|exact Hl|reflexivity|exact Hu].
  cbn [fst snd this entityid set_candidatesList set_sessionId _candidatesList app].
  rewrite app_nil_r. split; reflexivity.
Qed.

Lemma empty_session_id_keeps_buffering_witness :
  _candidatesList (this (fst (run ((IceCandidate 0 <$> [Some "candidate:1"]) ++
                                   [OfferEvent (SessionIdEvent "")] ++
                                   (IceCandidate 0 <$> [Some "candidate:2"]))
                                  subscribed_state))) = ["candidate:2"].
Proof.
  exact (proj2 (empty_session_id_keeps_buffering 0 [Some "candidate:1"]
    [Some "candidate:2"] subscribed_state _ eq_refl eq_refl eq_refl eq_refl)).
Defined.

(** ** Remote tracks *)

(** The tracks a call log stops. *)
Fixpoint stopped (log : list Call) : list nat :=
  match log with
  | [] => []
  | TrackStop track :: log' => track :: stopped log'
  | _ :: log' => stopped log'
  end.

Lemma stopped_app (l1 l2 : list Call) : stopped (l1 ++ l2) = stopped l1 ++ stopped l2.
Proof.
  induction l1 as [|c l1 IH]; [reflexivity|].
  destruct c; simpl; rewrite ?IH; reflexivity.
Qed.

Lemma stopped_release_calls (s : Sys) :
  stopped (release_calls s) =
  match _remoteStream (this s) with
  | Some ms => getTracks ms s
  | None => []
  end.
Proof.
  unfold release_calls. rewrite !stopped_app.
  assert (forall l, stopped (TrackStop <$> l) = l) as Htracks
    by (induction l as [|t l IH]; [reflexivity|];
        rewrite fmap_cons; cbn [stopped]; f_equal; exact IH).
  destruct (_remoteStream (this s)), (_videoEl (this s)),
    (_peerConnection (this s)), (_unsub (this s));
    rewrite ?Htracks, ?app_nil_r; reflexivity.
Qed.

Lemma track_step (a ms track : nat) (s : Sys) (f : Frame) :
  frame_of a s = Some f ->
  track_listener f = Some ms ->
  step (Track a track) s =
  ({| this := this s;
      env := set_streams (alter (fun ts => ts ++ [track]) ms (streams (env s))) (env s) |},
   StreamAddTrack ms track ::
   (if _videoEl (this s) then [VideoSetSrcObject ms] else [])).
Proof.
  intros Hf Hl. simpl. unfold read. rewrite Hf. simpl. rewrite Hl.
  unfold ontrack. rewrite !andThen_eq. unfold read, field, call, update. simpl.
  destruct (_videoEl (this s)); reflexivity.
Qed.

Lemma track_run (a ms : nat) (tracks : list nat) (s : Sys) (f : Frame) (ts : list nat) :
  frame_of a s = Some f ->
  track_listener f = Some ms ->
  streams (env s) !! ms = Some ts ->
  let r := run (Track a <$> tracks) s in
  this (fst r) = this s /\
  streams (env (fst r)) !! ms = Some (ts ++ tracks) /\
  stopped (snd r) = [].
Proof.
  revert s ts. induction tracks as [|t tracks IH]; intros s ts Hf Hl Hts; cbn zeta.
  - simpl. rewrite app_nil_r. repeat split. exact Hts.
  - rewrite fmap_cons, run_cons, (track_step a ms t s f Hf Hl). cbn [fst snd].
    match goal with |- context [run _ ?st] => set (s1 := st) end.
    assert (streams (env s1) !! ms = Some (ts ++ [t])) as Hts1.
    { unfold s1. cbn [env streams set_streams].
      rewrite list_lookup_alter_eq, Hts. reflexivity. }
    destruct (IH s1 (ts ++ [t]) Hf Hl Hts1) as (Hthis & Hstreams & Hstopped).
    split; [exact Hthis|]. split.
    + rewrite Hstreams, <- app_assoc. reflexivity.
    + rewrite stopped_app, Hstopped.
      destruct (_videoEl (this s)); reflexivity.
Qed.

(** X7: every track received on the current remote stream is stopped when the
    element is disconnected: the tracks stopped are those the stream
    already had followed by the received ones, in order of arrival. *)
Theorem received_tracks_stopped_on_disconnect (a ms : nat) (tracks ts : list nat)
    (s : Sys) (f : Frame) :
  frame_of a s = Some f ->
  track_listener f = Some ms ->
  _remoteStream (this s) = Some ms ->
  streams (env s) !! ms = Some ts ->
  stopped (snd (run ((Track a <$> tracks) ++ [Disconnected]) s)) = ts ++ tracks.
Proof.
  intros Hf Hl Hrs Hts. rewrite run_app_eq. cbn [snd].
  destruct (track_run a ms tracks s f ts Hf Hl Hts) as (Hthis & Hstreams & Hstopped).
  rewrite stopped_app, Hstopped, run_cons. cbn [snd run skip step].
  unfold disconnectedCallback. rewrite cleanUp_eq. cbn [snd].
  rewrite app_nil_r, stopped_release_calls, Hthis, Hrs.
  unfold getTracks. rewrite Hstreams. reflexivity.
Qed.

Lemma received_tracks_stopped_on_disconnect_witness :
  stopped (snd (run ((Track 0 <$> [7; 8]) ++ [Disconnected]) subscribed_state)) = [7; 8].
Proof.
  exact (received_tracks_stopped_on_disconnect 0 0 [7; 8] [] subscribed_state _
           eq_refl eq_refl eq_refl eq_refl).
Defined.

(** ** Lifecycle callbacks while an attempt is suspended *)

(** X8: [disconnectedCallback] does not cancel a pending configuration fetch:
    when the configuration arrives after the element was disconnected, the
    connection is still created and set up, nothing closes it, and
    [_peerConnection] holds it. *)
Theorem connection_created_after_disconnect (start : Event) (clientConfig : ClientConfig)
    (s : Sys) :
  starts_attempt start = true ->
  let a := length (frames (env s)) in
  let pc := next_pc (env s) in
  let r := run [start; Disconnected; ClientConfigSettled a (Fulfilled clientConfig)] s in
  snd r = release_calls s ++
          [FetchWebRtcClientConfiguration (entityid (this s))] ++
          (if _videoEl (this s) then [VideoRemoveAttribute "src"; VideoLoad] else []) ++
          config_calls pc clientConfig /\
  _peerConnection (this (fst r)) = Some pc /\
  phase_of a (fst r) = Some AwaitCreateOffer.
Proof.
  intros Hstart a pc. cbn zeta.
  rewrite run_cons, (starts_attempt_step start Hstart), startWebRtc_eq. cbn [fst snd].
  rewrite run_cons. cbn [step]. unfold disconnectedCallback. rewrite cleanUp_eq.
  cbn [fst snd]. rewrite run_cons, config_step_eq.
  match goal with
  | |- context [phase_of a ?st] =>
      assert (phase_of a st = Some AwaitClientConfig) as ->
  end.
  { unfold phase_of, frame_of. cbn [env frames set_frames]. subst a.
    rewrite lookup_new_frame. reflexivity. }
  rewrite config_eq. cbn [fst snd run skip]. rewrite app_nil_r.
  split; [|split].
  - rewrite <- !app_assoc. f_equal. cbn [app]. f_equal.
    unfold release_calls.
    cbn [this released set_error _remoteStream _videoEl _peerConnection _unsub app].
    destruct (_videoEl (this s)); reflexivity.
  - reflexivity.
  - unfold phase_of, frame_of. cbn [env frames set_frames set_next_pc]. subst a.
    rewrite !list_lookup_alter_eq, lookup_new_frame. reflexivity.
Qed.

Lemma connection_created_after_disconnect_witness :
  _peerConnection (this (fst (run [Connected true; Disconnected;
      ClientConfigSettled 0 (Fulfilled {| configuration := "stun"; dataChannel := None |})]
    (initial "camera.door")))) = Some 0.
Proof.
  exact (proj1 (proj2 (connection_created_after_disconnect (Connected true)
    {| configuration := "stun"; dataChannel := None |} (initial "camera.door") eq_refl))).
Defined.

Lemma interrupt_released (interrupt : Event) (s : Sys) :
  interrupt = Disconnected \/ starts_attempt interrupt = true ->
  _peerConnection (this (fst (step interrupt s))) = None /\
  _remoteStream (this (fst (step interrupt s))) = None /\
  entityid (this (fst (step interrupt s))) = entityid (this s) /\
  streams (env (fst (step interrupt s))) = streams (env s) /\
  next_sub (env (fst (step interrupt s))) = next_sub (env s) /\
  forall a f, frame_of a s = Some f -> frame_of a (fst (step interrupt s)) = Some f.
Proof.
  intros [-> | Hstart].
  - simpl. unfold disconnectedCallback. rewrite cleanUp_eq. repeat split. auto.
  - rewrite (starts_attempt_step interrupt Hstart), startWebRtc_eq. repeat split.
    intros a f Hf. unfold frame_of in *. cbn [fst env frames set_frames].
    apply lookup_app_l_Some. exact Hf.
Qed.

(** X9: when the awaited [createOffer] is fulfilled directly after a
    disconnect or the start of a new attempt, with no other event in
    between so that [_peerConnection] is still [undefined], the suspended
    activation ends there without a call: it installs no local
    description, and a settlement of [setLocalDescription] delivered for
    it next is ignored, so it sends no signalling offer. *)
Theorem interrupted_offer_creation_is_cancelled (interrupt : Event) (a : nat)
    (sdp : string) (r : Settled unit) (throws : option string) (s : Sys) (f : Frame) :
  interrupt = Disconnected \/ starts_attempt interrupt = true ->
  frame_of a s = Some f ->
  phase f = AwaitCreateOffer ->
  let r' := run [interrupt; CreateOfferSettled a (Fulfilled sdp);
                 SetLocalDescriptionSettled a r throws] s in
  snd r' = snd (step interrupt s) /\
  phase_of a (fst r') = Some Thrown.
Proof.
  intros Hint Hf Hph. cbn zeta.
  destruct (interrupt_released interrupt s Hint) as (Hpc & _ & _ & _ & _ & Hframes).
  specialize (Hframes a f Hf).
  rewrite run_cons. cbn [fst snd]. set (s1 := fst (step interrupt s)) in *.
  assert (step (CreateOfferSettled a (Fulfilled sdp)) s1 =
          ({| this := this s1;
              env := set_frames (alter (set_phase Thrown) a (frames (env s1))) (env s1) |},
           [])) as Hstep.
  { simpl. unfold read, phase_of. rewrite Hframes. simpl. rewrite Hph, offer_eq, Hpc.
    reflexivity. }
  rewrite run_cons, Hstep. cbn [fst snd app].
  match goal with |- context [run _ ?st] => set (s2 := st) end.
  assert (phase_of a s2 = Some Thrown) as Hthrown.
  { unfold s2, phase_of, frame_of. cbn [env frames set_frames].
    unfold frame_of in Hframes. rewrite list_lookup_alter_eq, Hframes. reflexivity. }
  assert (step (SetLocalDescriptionSettled a r throws) s2 = (s2, [])) as Hskip.
  { simpl. unfold read. rewrite Hthrown. destruct r; reflexivity. }
  rewrite run_cons, Hskip. cbn [fst snd run skip app].
  rewrite app_nil_r. split; [reflexivity|exact Hthrown].
Qed.

Definition creating_offer : Sys :=
  fst (run [Updated ["entityid"];
            ClientConfigSettled 0 (Fulfilled {| configuration := "stun"; dataChannel := None |})]
           (initial "camera.door")).

Lemma interrupted_offer_creation_is_cancelled_witness :
  snd (run [Disconnected; CreateOfferSettled 0 (Fulfilled "v=0");
            SetLocalDescriptionSettled 0 (Fulfilled ()) None] creating_offer) =
  [VideoRemoveAttribute "src"; VideoLoad; PcClose 0].
Proof.
  exact (proj1 (interrupted_offer_creation_is_cancelled Disconnected 0 "v=0"
    (Fulfilled ()) None creating_offer _ (or_introl eq_refl) eq_refl eq_refl)).
Defined.

(** X10: when the awaited [setLocalDescription] is fulfilled directly
    after a disconnect or the start of a new attempt, with no other event
    in between so that [_peerConnection] is still [undefined], the
    suspended activation still sends its offer for the current [entityid]
    and keeps the subscription in [_unsub]; it creates the media stream and
    then ends on the missing connection before registering the [track]
    listener, so [_remoteStream] stays [undefined]. *)
Theorem interrupted_local_description_still_signals (interrupt : Event) (a : nat)
    (sdp : string) (s : Sys) (f : Frame) :
  interrupt = Disconnected \/ starts_attempt interrupt = true ->
  frame_of a s = Some f ->
  phase f = AwaitSetLocalDescription sdp ->
  let r := run [interrupt; SetLocalDescriptionSettled a (Fulfilled ()) None] s in
  snd r = snd (step interrupt s) ++
          [WebRtcOffer (entityid (this s)) (sdp +:+ candidates f);
           NewMediaStream (length (streams (env s)))] /\
  _unsub (this (fst r)) = Some (next_sub (env s)) /\
  _remoteStream (this (fst r)) = None /\
  phase_of a (fst r) = Some Thrown.
Proof.
  intros Hint Hf Hph. cbn zeta.
  destruct (interrupt_released interrupt s Hint)
    as (Hpc & Hrs & He & Hst & Hsub & Hframes).
  specialize (Hframes a f Hf).
  rewrite run_cons. cbn [fst snd]. set (s1 := fst (step interrupt s)) in *.
  rewrite run_cons. cbn [run skip fst snd]. rewrite app_nil_r.
  assert (step (SetLocalDescriptionSettled a (Fulfilled ()) None) s1 =
          _startWebRtc_signal a sdp None s1) as ->.
  { simpl. unfold read, phase_of. rewrite Hframes. simpl. rewrite Hph. reflexivity. }
  rewrite signal_returns_eq. cbn zeta. rewrite Hpc. cbn [fst snd].
  unfold offer_sdp_of. rewrite Hframes, He, Hst, Hsub.
  cbn [this env _unsub set_unsub _remoteStream frames set_frames].
  repeat split.
  - exact Hrs.
  - unfold phase_of, frame_of. cbn [env frames set_frames].
    unfold frame_of in Hframes. rewrite list_lookup_alter_eq, Hframes. reflexivity.
Qed.

Definition installing_description : Sys :=
  fst (run [Updated ["entityid"];
            ClientConfigSettled 0 (Fulfilled {| configuration := "stun"; dataChannel := None |});
            CreateOfferSettled 0 (Fulfilled "v=0")]
           (initial "camera.door")).

Lemma interrupted_local_description_still_signals_witness :
  snd (run [Disconnected; SetLocalDescriptionSettled 0 (Fulfilled ()) None]
           installing_description) =
  [VideoRemoveAttribute "src"; VideoLoad; PcClose 0;
   WebRtcOffer "camera.door" "v=0"; NewMediaStream 0].
Proof.
  exact (proj1 (interrupted_local_description_still_signals Disconnected 0 "v=0"
    installing_description _ (or_introl eq_refl) eq_refl eq_refl)).
Defined.

(** * The copy of the class in [src/components/ha-web-rtc-player.ts]

    This copy has the same [render], callbacks, [_handleOfferEvent],
    [_handleAnswer], [_loadedData] and [icecandidate] listener, but its
    [_startWebRtc] does not call [_cleanUp], keeps the connection in a
    local constant [peerConnection] until just before the signalling call,
    and its [_cleanUp] releases the stream and the connection only. *)

Module ComponentsCopy.

(** [_cleanUp]. *)
Definition _cleanUp : Action :=
  read (field _remoteStream) (fun remoteStream =>
    match remoteStream with
    | Some ms =>
        read (getTracks ms) (fun tracks => forEach tracks (fun track => call (TrackStop track))) >>
        assign (set_remoteStream None)
    | None => skip
    end) >>
  read (field _videoEl) (fun videoEl =>
    if videoEl
    then call (VideoRemoveAttribute "src") >> call VideoLoad
    else skip) >>
  read (field _peerConnection) (fun peerConnection =>
    match peerConnection with
    | Some pc => call (PcClose pc) >> assign (set_peerConnection None)
    | None => skip
    end).

(** [_startWebRtc], up to [await fetchWebRtcClientConfiguration(...)]. *)
Definition _startWebRtc : Action :=
  assign (set_error None) >>
  read (field entityid) (fun e => call (FetchWebRtcClientConfiguration e)) >>
  update (fun w => set_frames (frames w ++ [new_frame]) w).

(** [_startWebRtc], from the fulfilled configuration fetch up to
    [await peerConnection.createOffer(offerOptions)].  The new connection
    is the local constant [peerConnection]; the field is not assigned. *)
Definition _startWebRtc_config (a : nat) (clientConfig : ClientConfig) : Action :=
  read (fun s => next_pc (env s)) (fun peerConnection =>
    update (set_next_pc (S peerConnection)) >>
    call (NewRTCPeerConnection peerConnection (configuration clientConfig)) >>
    (if truthy (dataChannel clientConfig)
     then call (CreateDataChannel peerConnection (default "" (dataChannel clientConfig)))
     else skip) >>
    call (AddTransceiver peerConnection Audio RecvOnly) >>
    call (AddTransceiver peerConnection Video RecvOnly) >>
    on_frame a (set_candidates "") >>
    assign (set_candidatesList []) >>
    call (AddEventListener peerConnection "icecandidate") >>
    on_frame a (set_icecandidate_listener true) >>
    call (CreateOffer peerConnection true true) >>
    on_frame a (set_phase AwaitCreateOffer)).

(** [_startWebRtc], from the created offer up to
    [await peerConnection.setLocalDescription(offer)]. *)
Definition _startWebRtc_offer (a peerConnection : nat) (sdp : string) : Action :=
  call (SetLocalDescription peerConnection sdp) >>
  on_frame a (set_phase (AwaitSetLocalDescription sdp)).

(** [_startWebRtc], from the installed local description to the end. *)
Definition _startWebRtc_signal (a peerConnection : nat) (sdp : string)
    (throws : option string) : Action :=
  read (frame_of a) (fun f =>
    let offer_sdp := sdp +:+ default "" (candidates <$> f) in
    assign (set_peerConnection (Some peerConnection)) >>
    read (field entityid) (fun e => call (WebRtcOffer e offer_sdp)) >>
    match throws with
    | Some message =>
        assign (set_error (Some ("Failed to start WebRTC stream: " +:+ message))) >>
        call (PcClose peerConnection) >>
        on_frame a (set_phase Returned)
    | None =>
        read (fun s => next_sub (env s)) (fun sub =>
          update (set_next_sub (S sub)) >>
          assign (set_unsub (Some sub))) >>
        read (fun s => length (streams (env s))) (fun ms =>
          update (fun w => set_streams (streams w ++ [[]]) w) >>
          call (NewMediaStream ms) >>
          call (AddEventListener peerConnection "track") >>
          on_frame a (set_track_listener (Some ms)) >>
          assign (set_remoteStream (Some ms)) >>
          on_frame a (set_phase Returned))
    end).

(** One activation of [_startWebRtc] whose awaited calls are all fulfilled,
    run without any other event in between. *)
Definition attempt (clientConfig : ClientConfig) (sdp : string)
    (throws : option string) : Action :=
  read (fun s => length (frames (env s))) (fun a =>
    read (fun s => next_pc (env s)) (fun peerConnection =>
      _startWebRtc >>
      _startWebRtc_config a clientConfig >>
      _startWebRtc_offer a peerConnection sdp >>
      _startWebRtc_signal a peerConnection sdp throws)).

Lemma copy_cleanUp_eq (s : Sys) :
  _cleanUp s =
  ({| this := set_peerConnection None (set_remoteStream None (this s)); env := env s |},
   match _remoteStream (this s) with
   | Some ms => TrackStop <$> getTracks ms s
   | None => []
   end ++
   (if _videoEl (this s) then [VideoRemoveAttribute "src"; VideoLoad] else []) ++
   match _peerConnection (this s) with
   | Some pc => [PcClose pc]
   | None => []
   end).
Proof.
  destruct s as [p w]. destruct p as [e err v pc rs u sid cl].
  unfold _cleanUp, andThen, read, field, getTracks.
  simpl. destruct rs as [ms|]; simpl; rewrite ?forEach_call;
    destruct v, pc; simpl; rewrite ?app_nil_r; reflexivity.
Qed.

Lemma copy_config_eq (a : nat) (clientConfig : ClientConfig) (s : Sys) :
  _startWebRtc_config a clientConfig s =
  ({| this := set_candidatesList [] (this s);
      env := set_frames
               (alter (set_phase AwaitCreateOffer) a
                  (alter (set_icecandidate_listener true) a
                     (alter (set_candidates "") a (frames (env s)))))
               (set_next_pc (S (next_pc (env s))) (env s)) |},
   config_calls (next_pc (env s)) clientConfig).
Proof.
  destruct s as [p w]. destruct w as [fr st npc nsub rp].
  unfold _startWebRtc_config, config_calls, andThen, read, call, assign,
    update, on_frame, skip. simpl.
  destruct (truthy (dataChannel clientConfig)); reflexivity.
Qed.

(** X14: in this copy [_cleanUp] keeps the session id, the subscription and the
    buffered candidates, and the subscription is never unsubscribed. *)
Theorem copy_cleanUp_keeps_session (s : Sys) :
  let r := _cleanUp s in
  _peerConnection (this (fst r)) = None /\
  _remoteStream (this (fst r)) = None /\
  _sessionId (this (fst r)) = _sessionId (this s) /\
  _unsub (this (fst r)) = _unsub (this s) /\
  _candidatesList (this (fst r)) = _candidatesList (this s) /\
  Forall (fun c => match c with Unsubscribe _ => False | _ => True end) (snd r).
Proof.
  cbn zeta. rewrite copy_cleanUp_eq. cbn [fst snd]. repeat split.
  rewrite !Forall_app. repeat split.
  - destruct (_remoteStream (this s)); [|constructor].
    apply Forall_fmap, Forall_true. intros t. exact I.
  - destruct (_videoEl (this s)); repeat constructor.
  - destruct (_peerConnection (this s)); repeat constructor.
Qed.

(** X15: with this copy, a session id that survived [_cleanUp] is used by the
    next attempt: a candidate gathered right after the next connection is
    set up is submitted at once under the previous session's id instead of
    being added to the new offer. *)
Theorem copy_stale_session_id_reused (clientConfig : ClientConfig) (c sid : string)
    (s : Sys) :
  _sessionId (this s) = Some sid ->
  sid <> "" ->
  c <> "" ->
  let a := length (frames (env s)) in
  let s' := fst ((_cleanUp >> _startWebRtc >> _startWebRtc_config a clientConfig) s) in
  step (IceCandidate a (Some c)) s' =
  (s', [AddWebRtcCandidate (entityid (this s)) sid c]).
Proof.
  intros Hsid Hne Hc. cbn zeta.
  rewrite !andThen_eq, copy_cleanUp_eq. cbn [fst].
  unfold _startWebRtc. rewrite !andThen_eq. unfold assign, read, field, call, update.
  cbn [fst snd this env]. rewrite copy_config_eq. cbn [fst].
  match goal with |- step _ ?st = _ => set (s' := st) end.
  assert (frame_of (length (frames (env s))) s' =
          Some (set_phase AwaitCreateOffer
                  (set_icecandidate_listener true (set_candidates "" new_frame)))) as Hf.
  { unfold s', frame_of. cbn [env frames set_frames set_next_pc].
    rewrite !list_lookup_alter_eq, lookup_new_frame. reflexivity. }
  rewrite (ice_step _ _ s' _ Hf eq_refl). unfold onicecandidate.
  assert (truthy (Some c) = true) as -> by (apply truthy_Some; eauto).
  cbn [negb]. unfold read, field.
  assert (_sessionId (this s') = Some sid) as -> by exact Hsid.
  assert (truthy (Some sid) = true) as -> by (apply truthy_Some; eauto).
  reflexivity.
Qed.

Lemma copy_stale_session_id_reused_witness :
  let s := {| this := set_sessionId (Some "s1") (this (initial "camera.door"));
              env := env (initial "camera.door") |} in
  let s' := fst ((_cleanUp >> _startWebRtc >>
                  _startWebRtc_config 0 {| configuration := "stun"; dataChannel := None |}) s) in
  step (IceCandidate 0 (Some "candidate:1")) s' =
  (s', [AddWebRtcCandidate "camera.door" "s1" "candidate:1"]).
Proof.
  refine (copy_stale_session_id_reused {| configuration := "stun"; dataChannel := None |}
    "candidate:1" "s1"
    {| this := set_sessionId (Some "s1") (this (initial "camera.door"));
       env := env (initial "camera.door") |} eq_refl _ _); discriminate.
Defined.

Lemma copy_startWebRtc_eq (s : Sys) :
  _startWebRtc s =
  ({| this := set_error None (this s);
      env := set_frames (frames (env s) ++ [new_frame]) (env s) |},
   [FetchWebRtcClientConfiguration (entityid (this s))]).
Proof. reflexivity. Qed.

Lemma copy_offer_eq (a peerConnection : nat) (sdp : string) (s : Sys) :
  _startWebRtc_offer a peerConnection sdp s =
  ({| this := this s;
      env := set_frames (alter (set_phase (AwaitSetLocalDescription sdp)) a
                           (frames (env s))) (env s) |},
   [SetLocalDescription peerConnection sdp]).
Proof. reflexivity. Qed.

Lemma copy_signal_eq (a peerConnection : nat) (sdp : string) (throws : option string)
    (s : Sys) :
  snd (_startWebRtc_signal a peerConnection sdp throws s) =
    WebRtcOffer (entityid (this s)) (offer_sdp_of a sdp s) ::
    match throws with
    | Some _ => [PcClose peerConnection]
    | None => [NewMediaStream (length (streams (env s)));
               AddEventListener peerConnection "track"]
    end /\
  _peerConnection (this (fst (_startWebRtc_signal a peerConnection sdp throws s))) =
    Some peerConnection.
Proof.
  destruct s as [p w]. destruct throws as [message|]; split; reflexivity.
Qed.

Lemma copy_attempt_eq (clientConfig : ClientConfig) (sdp : string)
    (throws : option string) (s : Sys) :
  let pc := next_pc (env s) in
  let r := attempt clientConfig sdp throws s in
  snd r = [FetchWebRtcClientConfiguration (entityid (this s))] ++
          config_calls pc clientConfig ++
          [SetLocalDescription pc sdp; WebRtcOffer (entityid (this s)) sdp] ++
          match throws with
          | Some _ => [PcClose pc]
          | None => [NewMediaStream (length (streams (env s)));
                     AddEventListener pc "track"]
          end /\
  _peerConnection (this (fst r)) = Some pc.
Proof.
  cbn zeta. unfold attempt, read.
  rewrite andThen_eq, copy_startWebRtc_eq. cbn [fst snd].
  rewrite andThen_eq, copy_config_eq. cbn [fst snd].
  rewrite andThen_eq, copy_offer_eq. cbn [fst snd].
  match goal with
  | |- context [_startWebRtc_signal ?a ?pc sdp throws ?st] =>
      destruct (copy_signal_eq a pc sdp throws st) as [-> ->];
      assert (offer_sdp_of a sdp st = sdp) as ->
  end.
  { unfold offer_sdp_of, frame_of. cbn [env frames set_frames set_next_pc].
    rewrite !list_lookup_alter_eq, lookup_new_frame.
    cbn [fmap option_fmap option_map default candidates set_phase
         set_icecandidate_listener set_candidates new_frame].
    apply append_nil_r. }
  split; [|reflexivity].
  cbn [this env entityid set_error set_candidatesList streams set_frames set_next_pc].
  reflexivity.
Qed.

(** X16: in this copy an attempt does not release the previous one: whatever
    connection the element held stays open, no call closes it, and the
    field is overwritten with the new connection, which is the only one
    closed when [webRtcOffer] throws. *)
Theorem copy_attempt_leaves_previous_connection_open (clientConfig : ClientConfig)
    (sdp : string) (throws : option string) (s : Sys) (pc0 : nat) :
  _peerConnection (this s) = Some pc0 ->
  pc0 < next_pc (env s) ->
  let r := attempt clientConfig sdp throws s in
  live_from [pc0] (snd r) =
    pc0 :: (if defined throws then [] else [next_pc (env s)]) /\
  _peerConnection (this (fst r)) = Some (next_pc (env s)).
Proof.
  intros _ Hlt. cbn zeta.
  destruct (copy_attempt_eq clientConfig sdp throws s) as [-> Hfield].
  split; [|exact Hfield].
  unfold config_calls. rewrite !live_from_app.
  destruct (truthy (dataChannel clientConfig)), throws as [message|];
    cbn [live_from app defined];
    rewrite ?filter_cons_True by lia;
    rewrite ?filter_cons_False by (intros H; apply H; reflexivity);
    reflexivity.
Qed.

Lemma copy_attempt_leaves_previous_connection_open_witness :
  let s := fst (attempt {| configuration := "stun"; dataChannel := None |} "v=0" None
                  (initial "camera.door")) in
  live_from [0] (snd (attempt {| configuration := "stun"; dataChannel := None |} "v=0" None s))
  = [0; 1].
Proof.
  refine (proj1 (copy_attempt_leaves_previous_connection_open
    {| configuration := "stun"; dataChannel := None |} "v=0" None
    (fst (attempt {| configuration := "stun"; dataChannel := None |} "v=0" None
            (initial "camera.door"))) 0 eq_refl _)).
  vm_compute. lia.
Defined.


End ComponentsCopy.

(** * At most one signalling offer per attempt *)

Definition is_offer (c : Call) : bool :=
  match c with
  | WebRtcOffer _ _ => true
  | _ => false
  end.

Definition is_pending (f : Frame) : bool := pending (phase f).

(** The number of activations suspended at an [await]. *)
Definition n_pending (l : list Frame) : nat := length (List.filter is_pending l).

Definition b2n (b : bool) : nat := if b then 1 else 0.

Lemma n_pending_alter (g : Frame -> Frame) (a : nat) (l : list Frame) (f : Frame) :
  l !! a = Some f ->
  n_pending (alter g a l) + b2n (is_pending f) = n_pending l + b2n (is_pending (g f)).
Proof.
  unfold n_pending. revert a.
  induction l as [|f' l IH]; intros [|a] Hf; try discriminate.
  - injection Hf as ->. change (alter g 0 (f :: l)) with (g f :: l).
    cbn [List.filter]. destruct (is_pending f), (is_pending (g f)); simpl; lia.
  - change (alter g (S a) (f' :: l)) with (f' :: alter g a l). cbn [List.filter].
    change ((f' :: l) !! S a) with (l !! a) in Hf. specialize (IH a Hf).
    destruct (is_pending f'); cbn [length]; lia.
Qed.

Lemma n_pending_alter_same (g : Frame -> Frame) (a : nat) (l : list Frame) :
  (forall f, is_pending (g f) = is_pending f) ->
  n_pending (alter g a l) = n_pending l.
Proof.
  intros Hg. destruct (l !! a) as [f|] eqn:Hf.
  - pose proof (n_pending_alter g a l f Hf) as H. rewrite Hg in H. lia.
  - f_equal. f_equal. apply list_eq. intros i.
    destruct (decide (a = i)) as [<-|Hne].
    + rewrite list_lookup_alter_eq, Hf. reflexivity.
    + apply list_lookup_alter_ne. exact Hne.
Qed.

Lemma n_pending_new (l : list Frame) : n_pending (l ++ [new_frame]) = S (n_pending l).
Proof. unfold n_pending. rewrite List.filter_app, length_app. simpl. lia. Qed.

Lemma no_offers (ev : Event) (log : list Call) :
  (forall e sdp, may_call ev (WebRtcOffer e sdp) = false) ->
  Forall (fun c => may_call ev c = true) log ->
  length (List.filter is_offer log) = 0.
Proof.
  intros Hno H. induction H as [|c l Hc _ IH]; [reflexivity|].
  destruct c; try exact IH. rewrite Hno in Hc. discriminate.
Qed.

Definition keeps_phases (ev : Event) : bool :=
  match ev with
  | SetEntityid _ | Disconnected | IceCandidate _ _ | Track _ _ | OfferEvent _
  | SetRemoteDescriptionSettled _ _ | LoadedData => true
  | _ => false
  end.

Lemma keeps_phases_step (ev : Event) (s : Sys) :
  keeps_phases ev = true ->
  n_pending (frames (env (fst (step ev s)))) = n_pending (frames (env s)).
Proof.
  intros Hev. revert s. change (keeps (fun w => n_pending (frames w)) (step ev)).
  destruct ev; try discriminate Hev; unfold_handlers;
    repeat first
      [ keeps_step
      | apply keeps_update; intros ?; cbn [frames set_frames];
        apply n_pending_alter_same; intros ?; reflexivity ].
Qed.

Lemma step_offers (ev : Event) (s : Sys) :
  length (List.filter is_offer (snd (step ev s))) +
    n_pending (frames (env (fst (step ev s)))) <=
  n_pending (frames (env s)) + b2n (starts_attempt ev).
Proof.
  destruct (starts_attempt ev) eqn:Hstart.
  { rewrite (starts_attempt_step ev Hstart), startWebRtc_eq. cbn [fst snd].
    cbn [env frames set_frames]. rewrite n_pending_new.
    rewrite (no_offers (Connected true)); [simpl; lia|intros; reflexivity|].
    pose proof (step_emits (Connected true) s) as H. simpl in H.
    rewrite startWebRtc_eq in H. exact H. }
  destruct (keeps_phases ev) eqn:Hk.
  { rewrite (keeps_phases_step ev s Hk).
    rewrite (no_offers ev); [simpl; lia| |apply step_emits].
    intros e sdp. destruct ev; try discriminate Hk; reflexivity. }
  assert (length (List.filter is_offer (snd (skip s))) + n_pending (frames (env s)) <=
          n_pending (frames (env s)) + b2n false) as Hskip by (simpl; lia).
  destruct ev; try discriminate Hk; simpl in Hstart.
  - simpl. unfold updated. rewrite Hstart. exact Hskip.
  - subst hasUpdated. exact Hskip.
  - (* configuration fetch settled *)
    simpl. unfold read.
    destruct (phase_of a s) as [ph|] eqn:Hph; [|destruct r; exact Hskip].
    destruct (phase_of_frame a s ph Hph) as (f & Hf & Hfp).
    destruct ph; try (destruct r; exact Hskip).
    destruct r as [clientConfig|message].
    + rewrite config_eq. cbn [fst snd env frames set_frames set_next_pc].
      rewrite (no_offers (ClientConfigSettled a (Fulfilled clientConfig)) _
                 (fun _ _ => eq_refl)).
      2: { pose proof (step_emits (ClientConfigSettled a (Fulfilled clientConfig)) s) as H.
           rewrite config_step_eq, Hph, config_eq in H. exact H. }
      pose proof (n_pending_alter (set_phase AwaitCreateOffer) a
        (alter (set_icecandidate_listener true) a
           (alter (set_candidates "") a (frames (env s))))
        (set_icecandidate_listener true (set_candidates "" f))) as H.
      rewrite !list_lookup_alter_eq, Hf in H. specialize (H eq_refl).
      rewrite (n_pending_alter_same (set_icecandidate_listener true)),
        (n_pending_alter_same (set_candidates "")) in H by (intros ?; reflexivity).
      unfold is_pending in H. simpl in H. rewrite Hfp in H. simpl in H. simpl. lia.
    + unfold on_frame, update. cbn [fst snd env frames set_frames].
      pose proof (n_pending_alter (set_phase Thrown) a _ f Hf) as H.
      unfold is_pending in H. simpl in H. simpl. lia.
  - (* createOffer settled *)
    simpl. unfold read.
    destruct (phase_of a s) as [ph|] eqn:Hph; [|destruct r; exact Hskip].
    destruct (phase_of_frame a s ph Hph) as (f & Hf & Hfp).
    destruct ph; try (destruct r; exact Hskip).
    destruct r as [sdp|message].
    + rewrite offer_eq. destruct (_peerConnection (this s));
        cbn [fst snd env frames set_frames];
        match goal with
        | |- context [alter (set_phase ?ph) a _] =>
            pose proof (n_pending_alter (set_phase ph) a _ f Hf) as H
        end;
        unfold is_pending in H; simpl in H; rewrite Hfp in H; simpl in H; simpl; lia.
    + unfold on_frame, update. cbn [fst snd env frames set_frames].
      pose proof (n_pending_alter (set_phase Thrown) a _ f Hf) as H.
      unfold is_pending in H. simpl in H. simpl. lia.
  - (* setLocalDescription settled *)
    simpl. unfold read.
    destruct (phase_of a s) as [ph|] eqn:Hph; [|destruct r; exact Hskip].
    destruct (phase_of_frame a s ph Hph) as (f & Hf & Hfp).
    destruct ph; try (destruct r; exact Hskip).
    assert (is_pending f = true) as Hp by (unfold is_pending; rewrite Hfp; reflexivity).
    destruct r as [u|message].
    + destruct throws as [message|].
      * rewrite signal_throws_eq. cbn [fst snd env frames set_frames].
        pose proof (n_pending_alter
          (set_phase (if defined (_peerConnection (this s)) then Returned else Thrown))
          a _ f Hf) as H.
        rewrite Hp in H. unfold is_pending in H.
        destruct (_peerConnection (this s)); simpl in H; simpl; lia.
      * rewrite signal_returns_eq. cbn zeta.
        destruct (_peerConnection (this s)); cbn [fst snd env frames set_frames].
        -- pose proof (n_pending_alter (set_phase Returned) a
             (alter (set_track_listener (Some (length (streams (env s))))) a
                (frames (env s)))
             (set_track_listener (Some (length (streams (env s)))) f)) as H.
           rewrite list_lookup_alter_eq, Hf in H. specialize (H eq_refl).
           rewrite (n_pending_alter_same (set_track_listener _)) in H
             by (intros ?; reflexivity).
           unfold is_pending in H. simpl in H. rewrite Hfp in H. simpl in H. simpl. lia.
        -- pose proof (n_pending_alter (set_phase Thrown) a _ f Hf) as H.
           rewrite Hp in H. unfold is_pending in H. simpl in H. simpl. lia.
    + unfold on_frame, update. cbn [fst snd env frames set_frames].
      pose proof (n_pending_alter (set_phase Thrown) a _ f Hf) as H.
      unfold is_pending in H. simpl in H. simpl. lia.
Qed.

(** X11: each attempt sends at most one signalling offer: in any run, the
    [webRtcOffer] calls made plus the activations still suspended at the
    end are at most the activations suspended at the beginning plus the
    attempts started. *)
Theorem at_most_one_offer_per_attempt (evs : list Event) (s : Sys) :
  length (List.filter is_offer (snd (run evs s))) +
    n_pending (frames (env (fst (run evs s)))) <=
  n_pending (frames (env s)) + length (List.filter starts_attempt evs).
Proof.
  revert s. induction evs as [|ev evs IH]; intros s; [simpl; lia|].
  rewrite run_cons. cbn [fst snd]. rewrite List.filter_app, length_app.
  pose proof (step_offers ev s) as Hstep. specialize (IH (fst (step ev s))).
  cbn [List.filter]. destruct (starts_attempt ev); cbn [length b2n] in *; lia.
Qed.

(** * Releasing and late rejections *)

Lemma start_releases_previous_witness :
  snd (_startWebRtc subscribed_state) =
  [VideoRemoveAttribute "src"; VideoLoad; PcClose 0; Unsubscribe 0;
   FetchWebRtcClientConfiguration "camera.door"].
Proof.
  exact (start_releases_previous subscribed_state 0 0 0 eq_refl eq_refl eq_refl).
Defined.

(** X12: the [catch] block of [_handleAnswer] closes whatever connection the
    element holds when the rejection arrives.  When a new attempt has
    started and set up its connection in the meantime, the rejection of
    the previous attempt's answer closes the new connection and puts the
    alert in front of the new attempt. *)
Theorem late_answer_rejection_closes_new_connection (start : Event)
    (clientConfig : ClientConfig) (answer message : string) (s : Sys) (pc : nat) :
  starts_attempt start = true ->
  _peerConnection (this s) = Some pc ->
  let a := length (frames (env s)) in
  let new_pc := next_pc (env s) in
  let r := run [OfferEvent (AnswerEvent answer); start;
                ClientConfigSettled a (Fulfilled clientConfig);
                SetRemoteDescriptionSettled pc (RejectedWith message)] s in
  snd r = [SetRemoteDescription pc answer] ++ release_calls s ++
          [FetchWebRtcClientConfiguration (entityid (this s))] ++
          config_calls new_pc clientConfig ++ [PcClose new_pc] /\
  render (this (fst r)) = HaAlert ("Failed to connect WebRTC stream: " +:+ message).
Proof.
  intros Hstart Hpc. cbn zeta. destruct s as [p w]. cbn [this env] in *.
  rewrite run_cons.
  assert (step (OfferEvent (AnswerEvent answer)) {| this := p; env := w |} =
          ({| this := p; env := set_remote_pending (remote_pending w ++ [pc]) w |},
           [SetRemoteDescription pc answer])) as ->.
  { simpl. unfold _handleOfferEvent, _handleAnswer, andThen, read, field, call,
      update, skip. simpl. rewrite Hpc. reflexivity. }
  cbn [fst snd]. f_equal.
  rewrite run_cons, (starts_attempt_step start Hstart), startWebRtc_eq. cbn [fst snd].
  rewrite run_cons, config_step_eq.
  match goal with
  | |- context [phase_of ?a ?st] =>
      assert (phase_of a st = Some AwaitClientConfig) as ->
  end.
  { unfold phase_of, frame_of. cbn [env frames set_frames set_remote_pending].
    rewrite lookup_new_frame. reflexivity. }
  rewrite config_eq. cbn [fst snd].
  rewrite run_cons. cbn [run skip fst snd]. rewrite app_nil_r.
  match goal with
  | |- context [step (SetRemoteDescriptionSettled pc (RejectedWith message)) ?st] =>
      destruct (answer_rejection_sets_error st pc message) as [Herr Hlog]
  end.
  { cbn [env remote_pending set_frames set_next_pc set_remote_pending].
    apply elem_of_app. right. apply list_elem_of_singleton. reflexivity. }
  split.
  - rewrite Hlog. cbn [this _peerConnection set_candidatesList set_peerConnection
      env next_pc set_frames set_remote_pending].
    rewrite <- !app_assoc. reflexivity.
  - apply render_error; [discriminate|exact Herr].
Qed.

Lemma late_answer_rejection_closes_new_connection_witness :
  snd (run [OfferEvent (AnswerEvent "v=0"); Updated ["entityid"];
            ClientConfigSettled 1 (Fulfilled {| configuration := "stun"; dataChannel := None |});
            SetRemoteDescriptionSettled 0 (RejectedWith "bad answer")]
           subscribed_state) =
  [SetRemoteDescription 0 "v=0";
   VideoRemoveAttribute "src"; VideoLoad; PcClose 0; Unsubscribe 0;
   FetchWebRtcClientConfiguration "camera.door";
   NewRTCPeerConnection 1 "stun";
   AddTransceiver 1 Audio RecvOnly; AddTransceiver 1 Video RecvOnly;
   AddEventListener 1 "icecandidate"; CreateOffer 1 true true;
   PcClose 1].
Proof.
  exact (proj1 (late_answer_rejection_closes_new_connection (Updated ["entityid"])
    {| configuration := "stun"; dataChannel := None |} "v=0" "bad answer"
    subscribed_state 0 eq_refl eq_refl)).
Defined.

(** * Failures while attempts overlap *)

Definition stun : ClientConfig := {| configuration := "stun"; dataChannel := None |}.

(** Two attempts started one after the other; the second configuration
    arrives while the first attempt installs its local description, and
    the first attempt's [webRtcOffer] then throws. *)
Definition offer_throws_during_overlap : list Event :=
  [Updated ["entityid"]; Updated ["entityid"];
   ClientConfigSettled 0 (Fulfilled stun);
   CreateOfferSettled 0 (Fulfilled "v=0");
   ClientConfigSettled 1 (Fulfilled stun);
   SetLocalDescriptionSettled 0 (Fulfilled ()) (Some "no route")].

(** The same two attempts; the first one gets as far as its answer, the
    second configuration arrives, and then the answer is rejected. *)
Definition answer_rejected_during_overlap : list Event :=
  [Updated ["entityid"]; Updated ["entityid"];
   ClientConfigSettled 0 (Fulfilled stun);
   CreateOfferSettled 0 (Fulfilled "v=0");
   SetLocalDescriptionSettled 0 (Fulfilled ()) None;
   OfferEvent (AnswerEvent "v=0 answer");
   ClientConfigSettled 1 (Fulfilled stun);
   SetRemoteDescriptionSettled 0 (RejectedWith "bad answer")].

(** C2: in both runs the error is set and the alert is rendered, but the
    [catch] block closes [this._peerConnection], which by then is the
    second attempt's connection 1: the connection 0 whose offer or answer
    failed is never closed and stays open. *)
Theorem failure_closes_another_connection :
  let r := run offer_throws_during_overlap (initial "camera.door") in
  let r' := run answer_rejected_during_overlap (initial "camera.door") in
  (In (SetLocalDescription 0 "v=0") (snd r) /\
   render (this (fst r)) = HaAlert "Failed to start WebRTC stream: no route" /\
   List.filter (fun c => negb (inert c)) (snd r) =
     [NewRTCPeerConnection 0 "stun"; NewRTCPeerConnection 1 "stun"; PcClose 1] /\
   live (snd r) = [0]) /\
  (In (SetRemoteDescription 0 "v=0 answer") (snd r') /\
   render (this (fst r')) = HaAlert "Failed to connect WebRTC stream: bad answer" /\
   List.filter (fun c => negb (inert c)) (snd r') =
     [NewRTCPeerConnection 0 "stun"; NewRTCPeerConnection 1 "stun"; PcClose 1] /\
   live (snd r') = [0]).
Proof.
  cbn zeta. split; (split; [vm_compute; tauto|]); repeat split; reflexivity.
Qed.

(** * What follows a failure *)








